(** * UUID generators of mysys: my_uuid_v4 and my_uuid_v7

    A shallow embedding of

    - [src/mysys/my_uuid_v4.c]   (module [MyUuidV4]),
    - [src/mysys/my_uuid_v7.c]   (module [MyUuidV7], millisecond ticks,
                                  random 12-bit field),
    - [src/unnamed/part_000]     (module [MyUuidV7SubMs], microsecond ticks,
                                  sub-millisecond 12-bit field, backpressure),

    followed by the properties of the generators.

    C objects of type [uint64], [uint16] and [uchar] are integers of [Z]
    kept in range by writing the wrap-around of every operation out.  The
    file-level statics of each translation unit are a record; the
    collaborators (clock, CSPRNG, sleep, error reporting, mutex) are an
    environment that answers the calls and logs them in a trace. *)

From Stdlib Require Import ZArith List Bool Lia String Sorted.
From Stdlib Require Import Floats Uint63.
Import ListNotations.
Open Scope Z_scope.

(** ** C integer arithmetic *)

Definition uint64 (z : Z) : Z := z mod 2 ^ 64.
Definition uint16 (z : Z) : Z := z mod 2 ^ 16.
Definition uchar (z : Z) : Z := z mod 2 ^ 8.

Definition UINT64_MAX : Z := 2 ^ 64 - 1.

(** [a + b] and [a - b] on [uint64] operands. *)
Definition add64 (a b : Z) : Z := uint64 (a + b).
Definition sub64 (a b : Z) : Z := uint64 (a - b).

(** [MY_MIN(a, b)], the macro [((a) < (b) ? (a) : (b))]. *)
Definition MY_MIN (a b : Z) : Z := if a <? b then a else b.

(** [(uint16) d] for a non-negative finite [double d]: truncation toward
    zero, then reduction modulo 2^16. *)
Definition double_to_uint16 (d : float) : Z :=
  match Prim2SF d with
  | S754_finite false m e => uint16 (Z.shiftl (Z.pos m) e)
  | _ => 0
  end.

(** [(double) n] for an integer below 2^63. *)
Definition uint64_to_double (n : Z) : float := PrimFloat.of_uint63 (Uint63.of_Z n).

(** ** Collaborators *)

Inductive event : Type :=
| ev_mutex_lock
| ev_mutex_unlock
| ev_sleep (arg : Z)
| ev_random_bytes (size : Z) (ok : bool)
| ev_printf_error (msg : string).

(** The environment of a process: what [my_hrtime()] will return on its
    next calls, what [my_random_bytes] will answer on its next calls (the
    status, and the content the buffer holds afterwards), and the trace of
    the calls made so far, oldest first. *)
Record env : Type := Env {
  hrtime : nat -> Z;
  hr_pos : nat;
  random : nat -> bool * Z;
  rnd_pos : nat;
  trace : list event
}.

Definition log (e : event) (o : env) : env :=
  Env (hrtime o) (hr_pos o) (random o) (rnd_pos o) (trace o ++ [e]).

Section Monad.

(** [G]: the statics of the translation unit. *)
Variable G : Type.

Record world : Type := World { statics : G; os : env }.

Definition M (A : Type) : Type := world -> A * world.

Definition ret {A : Type} (a : A) : M A := fun w => (a, w).

Definition bind {A B : Type} (m : M A) (f : A -> M B) : M B :=
  fun w => let (a, w') := m w in f a w'.

Definition exec {A : Type} (m : M A) (w : world) : world := snd (m w).
Definition eval {A : Type} (m : M A) (w : world) : A := fst (m w).

Definition get {A : Type} (field : G -> A) : M A :=
  fun w => (field (statics w), w).

Definition modify (f : G -> G) : M unit :=
  fun w => (tt, World (f (statics w)) (os w)).

Definition emit (e : event) : M unit :=
  fun w => (tt, World (statics w) (log e (os w))).

(** [my_hrtime().val]: an [ulonglong]. *)
Definition my_hrtime_val : M Z :=
  fun w =>
    let o := os w in
    (uint64 (hrtime o (hr_pos o)),
     World (statics w)
           (Env (hrtime o) (S (hr_pos o)) (random o) (rnd_pos o) (trace o))).

(** [my_random_bytes(buf, size) == MY_AES_OK], with the value the
    [size]-byte object at [buf] holds afterwards. *)
Definition my_random_bytes (size : Z) : M (bool * Z) :=
  fun w =>
    let o := os w in
    let (ok, v) := random o (rnd_pos o) in
    ((ok, v mod 2 ^ (8 * size)),
     World (statics w)
           (Env (hrtime o) (hr_pos o) (random o) (S (rnd_pos o))
                (trace o ++ [ev_random_bytes size ok]))).

Definition my_printf_error (msg : string) : M unit := emit (ev_printf_error msg).
Definition my_sleep (arg : Z) : M unit := emit (ev_sleep arg).
Definition mysql_mutex_lock : M unit := emit ev_mutex_lock.
Definition mysql_mutex_unlock : M unit := emit ev_mutex_unlock.

End Monad.

Arguments World {G} _ _.
Arguments statics {G} _.
Arguments os {G} _.
Arguments ret {G A} _ _.
Arguments bind {G A B} _ _ _.
Arguments exec {G A} _ _.
Arguments eval {G A} _ _.
Arguments get {G A} _ _.
Arguments modify {G} _ _.
Arguments emit {G} _ _.
Arguments my_hrtime_val {G} _.
Arguments my_random_bytes {G} _ _.
Arguments my_printf_error {G} _ _.
Arguments my_sleep {G} _ _.
Arguments mysql_mutex_lock {G} _.
Arguments mysql_mutex_unlock {G} _.

Declare Scope uuid_scope.
Delimit Scope uuid_scope with uuid.
Notation "x <- m ;; k" := (bind m (fun x => k))
  (at level 61, m at next level, right associativity) : uuid_scope.
Notation "m ;; k" := (bind m (fun _ => k))
  (at level 61, right associativity) : uuid_scope.
Open Scope uuid_scope.

(** ** Byte packing (myisampack.h) *)

(** Modelled from the spec: the macros [mi_int2store], [mi_int6store] and
    [mi_int8store] of myisampack.h are not among the sources; the spec has
    them write the low [n] bytes of the value big-endian, most significant
    byte first. *)
Fixpoint mi_intstore (n : nat) (A : Z) : list Z :=
  match n with
  | O => []
  | S k => uchar (Z.shiftr A (8 * Z.of_nat k)) :: mi_intstore k A
  end.

Definition mi_int2store : Z -> list Z := mi_intstore 2.
Definition mi_int6store : Z -> list Z := mi_intstore 6.
Definition mi_int8store : Z -> list Z := mi_intstore 8.

(** Reading a big-endian field back. *)
Definition be_value (bs : list Z) : Z :=
  fold_left (fun acc b => acc * 256 + b) bs 0.

(** The 48-bit field of bytes 0-5 and the 16-bit field of bytes 6-7. *)
Definition timestamp_field (to : list Z) : Z := be_value (firstn 6 to).
Definition field_6_7 (to : list Z) : Z := be_value (firstn 2 (skipn 6 to)).
Definition byte_at (to : list Z) (i : nat) : Z := nth i to 0.
(** Bytes 0-7 read as one big-endian number: the timestamp field followed
    by the tagged 16-bit field, the order in which identifiers compare
    bytewise. *)
Definition prefix_0_7 (to : list Z) : Z := be_value (firstn 8 to).
(** The 64-bit field of bytes 8-15, and the sixteen bytes as one 128-bit
    big-endian number (the order in which [memcmp] compares identifiers). *)
Definition field_8_15 (to : list Z) : Z := be_value (skipn 8 to).
Definition uuid_value (to : list Z) : Z := be_value to.

Definition LF : string := String (Ascii.ascii_of_nat 10) EmptyString.

(** ** src/mysys/my_uuid_v4.c *)

Module MyUuidV4.

Record globals : Type := Globals { my_uuid_v4_inited : bool }.

Definition UUID_VERSION : Z := 0x4000.
Definition UUID_VERSION_MASK : Z := 0x0FFF.
Definition UUID_VARIANT : Z := 0x8000000000000000.
Definition UUID_VARIANT_MASK : Z := 0x3FFFFFFFFFFFFFFF.

Definition error_message : string :=
  ("Failed to generate the random section of UUIDv4" ++ LF)%string.

(** Returns [my_random_bytes(rand_var, size) != MY_AES_OK] (so: whether the
    draw FAILED), together with the content of [*rand_var] afterwards. *)
Definition is_random_bits_generation_successful (size : Z) : M globals (bool * Z) :=
  r <- my_random_bytes size ;;
  ret (negb (fst r), snd r).

Definition my_uuid_v4_init : M globals unit :=
  inited <- get my_uuid_v4_inited ;;
  if inited then ret tt
  else modify (fun _ => Globals true).

(** [random_b] and [random_c] are the indeterminate initial contents of
    the two locals that a short-circuited [||] leaves untouched
    ([random_a] is always drawn).  [DBUG_ASSERT(my_uuid_v4_inited)] is
    compiled out of release builds.  The result is the 16 bytes written
    to [to]. *)
Definition my_uuid_v4 (random_b random_c : Z) : M globals (list Z) :=
  (* f(&random_a) || f(&random_b) || f(&random_c), left to right: each
     step carries the value of the disjunction so far and the local *)
  a <- is_random_bits_generation_successful 8 ;;
  b <- (if fst a then ret (true, uint16 random_b)
        else is_random_bits_generation_successful 2) ;;
  c <- (if fst b then ret (true, uint64 random_c)
        else is_random_bits_generation_successful 8) ;;
  (if fst c then my_printf_error error_message else ret tt) ;;
  let random_a := snd a in
  let random_b := snd b in
  let random_c := snd c in
  let random_b_and_version :=
    uint16 (Z.lor (Z.land random_b UUID_VERSION_MASK) UUID_VERSION) in
  let random_c_and_variant :=
    uint64 (Z.lor (Z.land random_c UUID_VARIANT_MASK) UUID_VARIANT) in
  ret (mi_int6store random_a
       ++ mi_int2store random_b_and_version
       ++ mi_int8store random_c_and_variant).

Definition my_uuid_v4_end : M globals unit :=
  inited <- get my_uuid_v4_inited ;;
  if inited then modify (fun _ => Globals false) else ret tt.

End MyUuidV4.

(** ** src/mysys/my_uuid_v7.c: millisecond ticks, random 12-bit field *)

Module MyUuidV7.

Record globals : Type := Globals {
  my_uuid_v7_inited : bool;
  milliseconds : Z;
  uuid_time : Z
}.

(** Static storage: [my_uuid_v7_inited= 0], [milliseconds] zero-initialised,
    [uuid_time= 0]. *)
Definition static_init : globals := Globals false 0 0.

Definition set_inited (v : bool) (g : globals) : globals :=
  Globals v (milliseconds g) (uuid_time g).
Definition set_milliseconds (v : Z) (g : globals) : globals :=
  Globals (my_uuid_v7_inited g) v (uuid_time g).
Definition set_uuid_time (v : Z) (g : globals) : globals :=
  Globals (my_uuid_v7_inited g) (milliseconds g) v.

Definition UUID_VERSION : Z := 0x7000.
Definition UUID_VERSION_MASK : Z := 0x0FFF.
Definition UUID_VARIANT : Z := 0x8000000000000000.
Definition UUID_VARIANT_MASK : Z := 0x3FFFFFFFFFFFFFFF.

(** [mysql_mutex_init] and [mysql_mutex_destroy] leave no mark on the
    statics modelled here. *)
Definition my_uuid_v7_init : M globals unit :=
  inited <- get my_uuid_v7_inited ;;
  if inited then ret tt
  else
    modify (set_inited true) ;;
    modify (set_milliseconds 0).

(** [DBUG_ASSERT(my_uuid_v7_inited)] is compiled out of release builds.
    The result is the 16 bytes written to [to]. *)
Definition my_uuid_v7 : M globals (list Z) :=
  hr <- my_hrtime_val ;;
  let tv := hr / 1000 in
  mysql_mutex_lock ;;
  last <- get uuid_time ;;
  tv <- (if tv >? last then
           ms <- get milliseconds ;;
           if negb (ms =? 0) then
             let delta := MY_MIN ms (uint16 (sub64 (sub64 tv last) 1)) in
             modify (set_milliseconds (sub64 ms delta)) ;;
             ret (sub64 tv delta)
           else ret tv
         else if tv <=? last then
           ms <- get milliseconds ;;
           modify (set_milliseconds (add64 ms (add64 (sub64 last tv) 1))) ;;
           ret (add64 last 1)
         else ret tv) ;;
  modify (set_uuid_time tv) ;;
  mysql_mutex_unlock ;;
  (* both return values are dropped *)
  a <- my_random_bytes 2 ;;
  b <- my_random_bytes 8 ;;
  let rand_a := snd a in
  let rand_b := snd b in
  let unix_ts_ms := uint64 (Z.land tv 0xFFFFFFFFFFFF) in
  let version_and_rand_a :=
    uint16 (Z.lor (Z.land rand_a UUID_VERSION_MASK) UUID_VERSION) in
  let variant_and_rand_b :=
    uint64 (Z.lor (Z.land rand_b UUID_VARIANT_MASK) UUID_VARIANT) in
  ret (mi_int6store unix_ts_ms
       ++ mi_int2store version_and_rand_a
       ++ mi_int8store variant_and_rand_b).

Definition my_uuid_v7_end : M globals unit :=
  inited <- get my_uuid_v7_inited ;;
  if inited then modify (set_inited false) else ret tt.

End MyUuidV7.

(** ** src/unnamed/part_000: microsecond ticks, sub-millisecond 12-bit field *)

Module MyUuidV7SubMs.

Record globals : Type := Globals {
  my_uuid_v7_inited : bool;
  borrowed_microseconds : Z;
  uuid_time : Z
}.

Definition static_init : globals := Globals false 0 0.

Definition set_inited (v : bool) (g : globals) : globals :=
  Globals v (borrowed_microseconds g) (uuid_time g).
Definition set_borrowed_microseconds (v : Z) (g : globals) : globals :=
  Globals (my_uuid_v7_inited g) v (uuid_time g).
Definition set_uuid_time (v : Z) (g : globals) : globals :=
  Globals (my_uuid_v7_inited g) (borrowed_microseconds g) v.

Definition UUID_VERSION : Z := 0x7000.
Definition UUID_VERSION_MASK : Z := 0x0FFF.
Definition UUID_VARIANT : Z := 0x8000000000000000.
Definition UUID_VARIANT_MASK : Z := 0x3FFFFFFFFFFFFFFF.
(** The [double] constant [4.096]: the nearest binary64 value. *)
Definition MICROSECONDS_TO_12BIT_MAPPING_FACTOR : float := 0x1.0624dd2f1a9fcp+2%float.
Definition MAX_BORROWED_MICROSECONDS : Z := 500000.
Definition SLEEP_MILLISECONDS : Z := 250.

Definition error_message : string :=
  ("Failed to generate the random section of UUIDv7" ++ LF)%string.

Definition my_uuid_v7_init : M globals unit :=
  inited <- get my_uuid_v7_inited ;;
  if inited then ret tt
  else
    modify (set_inited true) ;;
    modify (set_borrowed_microseconds 0).

(** [(uint16) (MICROSECONDS_TO_12BIT_MAPPING_FACTOR * (tv % 1000))]: the
    remainder is converted to [double], the product is rounded to
    binary64 and the cast truncates it. *)
Definition sub_ms_precision_of (tv : Z) : Z :=
  double_to_uint16
    (PrimFloat.mul MICROSECONDS_TO_12BIT_MAPPING_FACTOR
                   (uint64_to_double (tv mod 1000))).

(** [DBUG_ASSERT(my_uuid_v7_inited)] is compiled out of release builds.
    The result is the 16 bytes written to [to]. *)
Definition my_uuid_v7 : M globals (list Z) :=
  tv <- my_hrtime_val ;;
  mysql_mutex_lock ;;
  last <- get uuid_time ;;
  tv <- (if tv >? last then
           borrowed <- get borrowed_microseconds ;;
           if negb (borrowed =? 0) then
             let delta := MY_MIN borrowed (uint16 (sub64 (sub64 tv last) 1)) in
             modify (set_borrowed_microseconds (sub64 borrowed delta)) ;;
             ret (sub64 tv delta)
           else ret tv
         else if tv <=? last then
           borrowed <- get borrowed_microseconds ;;
           modify (set_borrowed_microseconds
                     (add64 borrowed (add64 (sub64 last tv) 1))) ;;
           let tv := add64 last 1 in
           borrowed <- get borrowed_microseconds ;;
           (if borrowed >? MAX_BORROWED_MICROSECONDS then
              my_sleep SLEEP_MILLISECONDS ;;
              borrowed <- get borrowed_microseconds ;;
              modify (set_borrowed_microseconds
                        (sub64 borrowed (MAX_BORROWED_MICROSECONDS / 2)))
            else ret tt) ;;
           ret tv
         else ret tv) ;;
  modify (set_uuid_time tv) ;;
  mysql_mutex_unlock ;;
  r <- my_random_bytes 8 ;;
  (if negb (fst r) then my_printf_error error_message else ret tt) ;;
  let rand := snd r in
  let unix_ts_ms := uint64 (Z.land (tv / 1000) 0xFFFFFFFFFFFF) in
  let sub_ms_precision := sub_ms_precision_of tv in
  let version_and_sub_ms_precision :=
    uint16 (Z.lor (Z.land sub_ms_precision UUID_VERSION_MASK) UUID_VERSION) in
  let variant_and_rand :=
    uint64 (Z.lor (Z.land rand UUID_VARIANT_MASK) UUID_VARIANT) in
  ret (mi_int6store unix_ts_ms
       ++ mi_int2store version_and_sub_ms_precision
       ++ mi_int8store variant_and_rand).

Definition my_uuid_v7_end : M globals unit :=
  inited <- get my_uuid_v7_inited ;;
  if inited then modify (set_inited false) else ret tt.

End MyUuidV7SubMs.

(** ** Sequential calls, lifecycles and observations *)

Section Runs.

Variable G : Type.
Variable generate : M G (list Z).

(** The world after [K] calls made one after the other. *)
Fixpoint run (K : nat) (w : world G) : world G :=
  match K with
  | O => w
  | S k => run k (exec generate w)
  end.

(** The worlds left by each of [K] sequential calls, in call order. *)
Fixpoint states (K : nat) (w : world G) : list (world G) :=
  match K with
  | O => []
  | S k => exec generate w :: states k (exec generate w)
  end.

(** The buffers written by each of [K] sequential calls, in call order. *)
Fixpoint outputs (K : nat) (w : world G) : list (list Z) :=
  match K with
  | O => []
  | S k => eval generate w :: outputs k (exec generate w)
  end.

End Runs.

Arguments run {G} _ _ _.
Arguments states {G} _ _ _.
Arguments outputs {G} _ _ _.

Definition in_uint64 (z : Z) : Prop := 0 <= z < 2 ^ 64.

(** 1 + 2 + ... + K. *)
Definition triangle (K : nat) : Z := Z.of_nat K * (Z.of_nat K + 1) / 2.

(** The clock reading the next call will get. *)
Definition next_hrtime {G : Type} (w : world G) : Z :=
  uint64 (hrtime (os w) (hr_pos (os w))).

(** Observations on a trace: the arguments of the sleeps, the number of
    error reports, the number of failed draws. *)
Definition sleeps (t : list event) : list Z :=
  flat_map (fun e => match e with ev_sleep a => [a] | _ => [] end) t.

Definition reports (t : list event) : nat :=
  List.length (filter (fun e => match e with ev_printf_error _ => true | _ => false end) t).

Definition failed_draws (t : list event) : nat :=
  List.length (filter (fun e => match e with ev_random_bytes _ false => true | _ => false end) t).

Definition draws (t : list event) : nat :=
  List.length (filter (fun e => match e with ev_random_bytes _ _ => true | _ => false end) t).

(** The mutex operations of a trace, in order. *)
Definition mutex_ops (t : list event) : list event :=
  filter (fun e => match e with
                   | ev_mutex_lock | ev_mutex_unlock => true
                   | _ => false
                   end) t.

Module V7.

Import MyUuidV7.

Definition tick (w : world globals) : Z := uuid_time (statics w).
Definition debt (w : world globals) : Z := milliseconds (statics w).
Definition inited (w : world globals) : bool := my_uuid_v7_inited (statics w).

(** The statics hold values of their C type. *)
Definition valid (w : world globals) : Prop :=
  in_uint64 (debt w) /\ in_uint64 (tick w).

(** The last ticks stored by [K] sequential calls. *)
Definition ticks (K : nat) (w : world globals) : list Z :=
  map tick (states my_uuid_v7 K w).

(** Before each of the [K] calls the stored tick is below the largest
    [uint64]. *)
Fixpoint unsaturated (K : nat) (w : world globals) : Prop :=
  match K with
  | O => True
  | S k => tick w < UINT64_MAX /\ unsaturated k (exec my_uuid_v7 w)
  end.

(** What a process can make of the statics: they start as the loader
    leaves them, and change by [init], [end] and, between the two, by
    calls of [my_uuid_v7]. *)
Inductive reachable : world globals -> Prop :=
| reach_start (o : env) : reachable (World static_init o)
| reach_init (w : world globals) :
    reachable w -> reachable (exec my_uuid_v7_init w)
| reach_generate (w : world globals) :
    reachable w -> inited w = true -> reachable (exec my_uuid_v7 w)
| reach_end (w : world globals) :
    reachable w -> reachable (exec my_uuid_v7_end w).

(** A process that has called [my_uuid_v7_init], in environment [o]. *)
Definition started (o : env) : world globals :=
  exec my_uuid_v7_init (World static_init o).

(** The clock reading of the next call in the unit of the ticks:
    [my_hrtime().val / 1000]. *)
Definition next_ms (w : world globals) : Z := next_hrtime w / 1000.

(** The amount [my_uuid_v7] repays when the clock is ahead of the stored
    tick, as the source computes it. *)
Definition repayment (w : world globals) : Z :=
  if debt w =? 0 then 0
  else MY_MIN (debt w) (uint16 (sub64 (sub64 (next_ms w) (tick w)) 1)).

(** The debt after the adjustment of the stalled branch. *)
Definition adjusted_debt (w : world globals) : Z :=
  add64 (debt w) (add64 (sub64 (tick w) (next_ms w)) 1).

End V7.

Module V7SubMs.

Import MyUuidV7SubMs.

Definition tick (w : world globals) : Z := uuid_time (statics w).
Definition debt (w : world globals) : Z := borrowed_microseconds (statics w).
Definition inited (w : world globals) : bool := my_uuid_v7_inited (statics w).

Definition valid (w : world globals) : Prop :=
  in_uint64 (debt w) /\ in_uint64 (tick w).

Definition ticks (K : nat) (w : world globals) : list Z :=
  map tick (states my_uuid_v7 K w).

Fixpoint unsaturated (K : nat) (w : world globals) : Prop :=
  match K with
  | O => True
  | S k => tick w < UINT64_MAX /\ unsaturated k (exec my_uuid_v7 w)
  end.

Inductive reachable : world globals -> Prop :=
| reach_start (o : env) : reachable (World static_init o)
| reach_init (w : world globals) :
    reachable w -> reachable (exec my_uuid_v7_init w)
| reach_generate (w : world globals) :
    reachable w -> inited w = true -> reachable (exec my_uuid_v7 w)
| reach_end (w : world globals) :
    reachable w -> reachable (exec my_uuid_v7_end w).

Definition started (o : env) : world globals :=
  exec my_uuid_v7_init (World static_init o).

(** The amount [my_uuid_v7] repays when the clock is ahead of the stored
    tick, as the source computes it. *)
Definition repayment (w : world globals) : Z :=
  if debt w =? 0 then 0
  else MY_MIN (debt w) (uint16 (sub64 (sub64 (next_hrtime w) (tick w)) 1)).

(** Bytes 0-7 of the identifier made from tick [t]: milliseconds, then
    the version and the microseconds scaled by 4.096. *)
Definition key_of_tick (t : Z) : Z :=
  ((t / 1000) mod 2 ^ 48) * 65536 + (0x7000 + 4096 * (t mod 1000) / 1000).

(** The debt after the adjustment of the stalled branch, before the
    ceiling is looked at. *)
Definition adjusted_debt (w : world globals) : Z :=
  add64 (debt w) (add64 (sub64 (tick w) (next_hrtime w)) 1).

End V7SubMs.

(** Concrete environments used by the examples. *)
Definition env_of (clock : nat -> Z) (rnd : nat -> bool * Z) : env :=
  Env clock 0 rnd 0 [].

Definition rnd_ok : nat -> bool * Z := fun _ => (true, 0).
Definition rnd_broken : nat -> bool * Z := fun _ => (false, 0).

(* ------------------------------------------------------------------ *)
(** * Properties *)

(** ** Arithmetic of the C types *)

Lemma uint64_range z : in_uint64 (uint64 z).
Proof. unfold in_uint64, uint64. apply Z.mod_pos_bound. lia. Qed.

Lemma uint64_id z : in_uint64 z -> uint64 z = z.
Proof. unfold in_uint64, uint64. intros H. apply Z.mod_small. exact H. Qed.

Lemma uint16_range z : 0 <= uint16 z < 65536.
Proof. unfold uint16. change (2 ^ 16) with 65536. apply Z.mod_pos_bound. lia. Qed.

Lemma uint16_le z : 0 <= z -> uint16 z <= z.
Proof. unfold uint16. intros H. apply Z.mod_le; lia. Qed.

Lemma MY_MIN_spec a b : MY_MIN a b = Z.min a b.
Proof. unfold MY_MIN. destruct (Z.ltb_spec a b); lia. Qed.

Lemma in_uint64_max z : in_uint64 z <-> 0 <= z <= UINT64_MAX.
Proof. unfold in_uint64, UINT64_MAX. lia. Qed.

Lemma add64_small a b : 0 <= a + b <= UINT64_MAX -> add64 a b = a + b.
Proof. intros H. unfold add64. apply uint64_id, in_uint64_max, H. Qed.

Lemma sub64_small a b : 0 <= a - b <= UINT64_MAX -> sub64 a b = a - b.
Proof. intros H. unfold sub64. apply uint64_id, in_uint64_max, H. Qed.

Lemma uint64_add_idemp a b : uint64 (uint64 a + b) = uint64 (a + b).
Proof. unfold uint64. apply Zplus_mod_idemp_l. Qed.

(** ** Traces *)

Lemma sleeps_app t1 t2 : sleeps (t1 ++ t2) = sleeps t1 ++ sleeps t2.
Proof. unfold sleeps. apply flat_map_app. Qed.

Lemma reports_app t1 t2 : reports (t1 ++ t2) = (reports t1 + reports t2)%nat.
Proof. unfold reports. rewrite filter_app. apply length_app. Qed.

Lemma failed_draws_app t1 t2 :
  failed_draws (t1 ++ t2) = (failed_draws t1 + failed_draws t2)%nat.
Proof. unfold failed_draws. rewrite filter_app. apply length_app. Qed.

Lemma draws_app t1 t2 : draws (t1 ++ t2) = (draws t1 + draws t2)%nat.
Proof. unfold draws. rewrite filter_app. apply length_app. Qed.

(** ** Symbolic execution of the monadic code *)

Ltac monad_unfold :=
  unfold exec, eval, bind, get, modify, ret, my_sleep, my_printf_error,
    mysql_mutex_lock, mysql_mutex_unlock, emit, my_hrtime_val, my_random_bytes, log.

Ltac trace_simpl :=
  rewrite ?sleeps_app, ?reports_app, ?failed_draws_app, ?draws_app;
  cbn [sleeps reports failed_draws draws flat_map filter List.length app Nat.add];
  rewrite ?app_nil_r, ?Nat.add_0_r.

(** ** One call of the sub-millisecond generator *)

Module SubMsStep.

Import MyUuidV7SubMs V7SubMs.

Ltac simp :=
  cbv beta iota zeta delta
    [statics os uuid_time borrowed_microseconds my_uuid_v7_inited
     hrtime hr_pos random rnd_pos trace
     set_borrowed_microseconds set_uuid_time set_inited fst snd negb].

Ltac crunch :=
  repeat (simp;
          match goal with
          | H : ?f ?n = pair _ _ |- context [?f ?n] => rewrite H
          | |- context [if ?c then _ else _] => destruct c eqn:?
          end);
  simp.

Ltac start w :=
  destruct w as [[i b u] [h hp r rp t]];
  unfold repayment, adjusted_debt in *;
  unfold tick, debt, inited, next_hrtime in *;
  cbv beta iota zeta delta
    [statics os uuid_time borrowed_microseconds my_uuid_v7_inited
     hrtime hr_pos random rnd_pos trace] in *;
  unfold my_uuid_v7, my_uuid_v7_init, my_uuid_v7_end; monad_unfold; simp;
  destruct (r rp) as [ok v] eqn:Hrnd.

Lemma subms_step_env w :
  hrtime (os (exec my_uuid_v7 w)) = hrtime (os w) /\
  hr_pos (os (exec my_uuid_v7 w)) = S (hr_pos (os w)) /\
  random (os (exec my_uuid_v7 w)) = random (os w) /\
  rnd_pos (os (exec my_uuid_v7 w)) = S (rnd_pos (os w)) /\
  inited (exec my_uuid_v7 w) = inited w.
Proof. start w. crunch; auto. Qed.

Lemma subms_step_advance w :
  tick w < next_hrtime w ->
  tick (exec my_uuid_v7 w) =
    (if debt w =? 0 then next_hrtime w else sub64 (next_hrtime w) (repayment w)) /\
  debt (exec my_uuid_v7 w) =
    (if debt w =? 0 then debt w else sub64 (debt w) (repayment w)) /\
  sleeps (trace (os (exec my_uuid_v7 w))) = sleeps (trace (os w)).
Proof.
  intros H. start w.
  destruct (Z.gtb_spec (uint64 (h hp)) u); [|lia].
  destruct (b =? 0) eqn:Eb; crunch; trace_simpl; auto.
Qed.

Lemma subms_step_stalled w :
  next_hrtime w <= tick w ->
  tick (exec my_uuid_v7 w) = add64 (tick w) 1 /\
  debt (exec my_uuid_v7 w) =
    (if adjusted_debt w >? MAX_BORROWED_MICROSECONDS
     then sub64 (adjusted_debt w) (MAX_BORROWED_MICROSECONDS / 2)
     else adjusted_debt w) /\
  sleeps (trace (os (exec my_uuid_v7 w))) =
    sleeps (trace (os w)) ++
    (if adjusted_debt w >? MAX_BORROWED_MICROSECONDS
     then [SLEEP_MILLISECONDS] else []).
Proof.
  intros H. start w.
  destruct (Z.gtb_spec (uint64 (h hp)) u); [lia|].
  destruct (Z.leb_spec (uint64 (h hp)) u); [|lia].
  crunch; trace_simpl; auto.
Qed.

(** The draw of the call and what is made of its failure. *)
Lemma subms_step_report w :
  let ok := fst (random (os w) (rnd_pos (os w))) in
  reports (trace (os (exec my_uuid_v7 w))) =
    (reports (trace (os w)) + (if ok then 0 else 1))%nat /\
  failed_draws (trace (os (exec my_uuid_v7 w))) =
    (failed_draws (trace (os w)) + (if ok then 0 else 1))%nat /\
  draws (trace (os (exec my_uuid_v7 w))) = S (draws (trace (os w))).
Proof.
  start w. crunch; trace_simpl; repeat split; try lia; try discriminate.
Qed.

(** The bytes written, from the tick the call stores. *)
Lemma subms_step_output w :
  exists rand : Z,
    eval my_uuid_v7 w =
    mi_int6store (uint64 (Z.land (tick (exec my_uuid_v7 w) / 1000) 0xFFFFFFFFFFFF))
    ++ mi_int2store
         (uint16 (Z.lor (Z.land (sub_ms_precision_of (tick (exec my_uuid_v7 w)))
                                UUID_VERSION_MASK) UUID_VERSION))
    ++ mi_int8store (uint64 (Z.lor (Z.land rand UUID_VARIANT_MASK) UUID_VARIANT)).
Proof.
  start w. crunch; eexists; reflexivity.
Qed.

End SubMsStep.

Module SubMsFacts.

Import MyUuidV7SubMs V7SubMs SubMsStep.

Lemma subms_next_hrtime_range (w : world globals) : in_uint64 (next_hrtime w).
Proof. apply uint64_range. Qed.

Lemma subms_gap_exact w :
  valid w -> tick w < next_hrtime w ->
  sub64 (sub64 (next_hrtime w) (tick w)) 1 = next_hrtime w - tick w - 1.
Proof.
  intros [_ Ht] H. pose proof (subms_next_hrtime_range w) as Hn.
  unfold in_uint64 in *.
  rewrite (sub64_small (next_hrtime w) (tick w)) by (unfold UINT64_MAX; lia).
  apply sub64_small. unfold UINT64_MAX. lia.
Qed.

Lemma subms_repayment_bounds w :
  valid w -> tick w < next_hrtime w ->
  0 <= repayment w <= debt w /\
  repayment w <= next_hrtime w - tick w - 1 /\
  repayment w <= 65535.
Proof.
  intros Hv H. pose proof (subms_gap_exact w Hv H) as Hg.
  destruct Hv as [Hd Ht]. unfold in_uint64 in *.
  unfold repayment. destruct (debt w =? 0) eqn:E; [lia|].
  rewrite MY_MIN_spec, Hg.
  pose proof (uint16_range (next_hrtime w - tick w - 1)).
  pose proof (uint16_le (next_hrtime w - tick w - 1)).
  lia.
Qed.

Lemma subms_step_advance_exact w :
  valid w -> tick w < next_hrtime w ->
  tick (exec my_uuid_v7 w) = next_hrtime w - repayment w /\
  debt (exec my_uuid_v7 w) = debt w - repayment w.
Proof.
  intros Hv H.
  destruct (subms_step_advance w H) as (Ht & Hd & _).
  destruct (subms_repayment_bounds w Hv H) as (Hr1 & Hr2 & _).
  pose proof (subms_next_hrtime_range w) as Hn.
  destruct Hv as [Hvd Hvt]. unfold in_uint64 in *.
  rewrite Ht, Hd. unfold repayment in *.
  destruct (debt w =? 0) eqn:E; rewrite ?E in *.
  - lia.
  - set (d := MY_MIN _ _) in *.
    rewrite !sub64_small; unfold UINT64_MAX; lia.
Qed.

Lemma subms_step_valid w : valid w -> valid (exec my_uuid_v7 w).
Proof.
  intros Hv.
  destruct (Z.lt_ge_cases (tick w) (next_hrtime w)) as [H|H].
  - destruct (subms_step_advance_exact w Hv H) as [Ht Hd].
    destruct (subms_repayment_bounds w Hv H) as (Hr1 & Hr2 & _).
    pose proof (subms_next_hrtime_range w) as Hn.
    destruct Hv as [Hvd Hvt]. unfold valid, in_uint64 in *.
    rewrite Ht, Hd. lia.
  - destruct (subms_step_stalled w H) as (Ht & Hd & _).
    unfold valid. rewrite Ht, Hd. split.
    + destruct (adjusted_debt w >? MAX_BORROWED_MICROSECONDS);
        [apply uint64_range | apply uint64_range].
    + apply uint64_range.
Qed.

(** The stored tick grows with every call, short of the largest [uint64]. *)
Lemma subms_step_increase w :
  valid w -> tick w < UINT64_MAX -> tick w < tick (exec my_uuid_v7 w).
Proof.
  intros Hv Hmax.
  destruct (Z.lt_ge_cases (tick w) (next_hrtime w)) as [H|H].
  - destruct (subms_step_advance_exact w Hv H) as [Ht _].
    destruct (subms_repayment_bounds w Hv H) as (_ & Hr2 & _).
    rewrite Ht. lia.
  - destruct (subms_step_stalled w H) as (Ht & _).
    destruct Hv as [_ Hvt]. unfold in_uint64 in Hvt.
    rewrite Ht, add64_small; lia.
Qed.

Lemma subms_run_valid K : forall w, valid w -> valid (run my_uuid_v7 K w).
Proof.
  induction K as [|k IH]; intros w Hv; cbn [run]; [exact Hv|].
  apply IH, subms_step_valid, Hv.
Qed.

Lemma subms_ticks_above K :
  forall w, valid w -> unsaturated K w ->
            Forall (fun t => tick w < t) (ticks K w).
Proof.
  induction K as [|k IH]; intros w Hv Hu.
  - constructor.
  - destruct Hu as [Hmax Hu]. unfold ticks in *. cbn [states map].
    pose proof (subms_step_increase w Hv Hmax) as Hlt.
    constructor; [exact Hlt|].
    eapply Forall_impl; [|apply IH; [apply subms_step_valid, Hv | exact Hu]].
    cbn. intros t Ht. lia.
Qed.

Lemma subms_ticks_sorted K :
  forall w, valid w -> unsaturated K w ->
            StronglySorted Z.lt (tick w :: ticks K w).
Proof.
  induction K as [|k IH]; intros w Hv Hu.
  - constructor; constructor.
  - constructor; [|apply subms_ticks_above; assumption].
    destruct Hu as [Hmax Hu]. unfold ticks in *. cbn [states map].
    apply IH; [apply subms_step_valid, Hv | exact Hu].
Qed.

Lemma subms_reachable_valid w : reachable w -> valid w.
Proof.
  induction 1 as [o|w _ IH|w _ IH _|w _ IH].
  - unfold valid, in_uint64, tick, debt. cbn. lia.
  - revert IH. unfold valid. start w. crunch; cbn; auto.
    intros [_ Ht]. split; [unfold in_uint64; lia | exact Ht].
  - apply subms_step_valid, IH.
  - revert IH. unfold valid. start w. crunch; cbn; auto.
Qed.

End SubMsFacts.

(** ** One call of the millisecond generator *)

Module V7Step.

Import MyUuidV7 V7.

Ltac simp :=
  cbv beta iota zeta delta
    [statics os uuid_time milliseconds my_uuid_v7_inited
     hrtime hr_pos random rnd_pos trace
     set_milliseconds set_uuid_time set_inited fst snd negb].

Ltac crunch :=
  repeat (simp;
          match goal with
          | H : ?f ?n = pair _ _ |- context [?f ?n] => rewrite H
          | |- context [if ?c then _ else _] => destruct c eqn:?
          end);
  simp.

Ltac start w :=
  destruct w as [[i b u] [h hp r rp t]];
  unfold repayment, adjusted_debt in *;
  unfold next_ms in *;
  unfold tick, debt, inited, next_hrtime in *;
  cbv beta iota zeta delta
    [statics os uuid_time milliseconds my_uuid_v7_inited
     hrtime hr_pos random rnd_pos trace] in *;
  unfold my_uuid_v7, my_uuid_v7_init, my_uuid_v7_end; monad_unfold; simp;
  destruct (r rp) as [ok1 v1] eqn:Hrnd1;
  destruct (r (S rp)) as [ok2 v2] eqn:Hrnd2.

Lemma v7_step_env w :
  hrtime (os (exec my_uuid_v7 w)) = hrtime (os w) /\
  hr_pos (os (exec my_uuid_v7 w)) = S (hr_pos (os w)) /\
  random (os (exec my_uuid_v7 w)) = random (os w) /\
  rnd_pos (os (exec my_uuid_v7 w)) = S (S (rnd_pos (os w))) /\
  inited (exec my_uuid_v7 w) = inited w.
Proof. start w. crunch; auto. Qed.

Lemma v7_step_advance w :
  tick w < next_ms w ->
  tick (exec my_uuid_v7 w) =
    (if debt w =? 0 then next_ms w else sub64 (next_ms w) (repayment w)) /\
  debt (exec my_uuid_v7 w) =
    (if debt w =? 0 then debt w else sub64 (debt w) (repayment w)).
Proof.
  intros H. start w.
  destruct (Z.gtb_spec (uint64 (h hp) / 1000) u); [|lia].
  destruct (b =? 0) eqn:Eb; crunch; auto.
Qed.

Lemma v7_step_stalled w :
  next_ms w <= tick w ->
  tick (exec my_uuid_v7 w) = add64 (tick w) 1 /\
  debt (exec my_uuid_v7 w) = adjusted_debt w.
Proof.
  intros H. start w.
  destruct (Z.gtb_spec (uint64 (h hp) / 1000) u); [lia|].
  destruct (Z.leb_spec (uint64 (h hp) / 1000) u); [|lia].
  crunch; auto.
Qed.

(** The events of a call: the mutex taken and released, two draws, and
    nothing else. *)
Lemma v7_step_trace w :
  trace (os (exec my_uuid_v7 w)) =
  trace (os w)
  ++ [ev_mutex_lock; ev_mutex_unlock;
      ev_random_bytes 2 (fst (random (os w) (rnd_pos (os w))));
      ev_random_bytes 8 (fst (random (os w) (S (rnd_pos (os w)))))].
Proof.
  start w. crunch; rewrite <- ?app_assoc; reflexivity.
Qed.

Lemma v7_step_output w :
  exists rand_a rand_b : Z,
    eval my_uuid_v7 w =
    mi_int6store (uint64 (Z.land (tick (exec my_uuid_v7 w)) 0xFFFFFFFFFFFF))
    ++ mi_int2store (uint16 (Z.lor (Z.land rand_a UUID_VERSION_MASK) UUID_VERSION))
    ++ mi_int8store (uint64 (Z.lor (Z.land rand_b UUID_VARIANT_MASK) UUID_VARIANT)).
Proof.
  start w. crunch; do 2 eexists; reflexivity.
Qed.

End V7Step.

Module V7Facts.

Import MyUuidV7 V7 V7Step.

Lemma v7_next_ms_range (w : world globals) : in_uint64 (next_ms w).
Proof.
  unfold next_ms. pose proof (uint64_range (hrtime (os w) (hr_pos (os w)))) as H.
  fold (next_hrtime w) in H. unfold in_uint64 in *.
  split.
  - apply Z.div_pos; lia.
  - apply Z.le_lt_trans with (next_hrtime w); [|lia].
    apply Z.div_le_upper_bound; lia.
Qed.

Lemma v7_gap_exact w :
  valid w -> tick w < next_ms w ->
  sub64 (sub64 (next_ms w) (tick w)) 1 = next_ms w - tick w - 1.
Proof.
  intros [_ Ht] H. pose proof (v7_next_ms_range w) as Hn.
  unfold in_uint64 in *.
  rewrite (sub64_small (next_ms w) (tick w)) by (unfold UINT64_MAX; lia).
  apply sub64_small. unfold UINT64_MAX. lia.
Qed.

Lemma v7_repayment_bounds w :
  valid w -> tick w < next_ms w ->
  0 <= repayment w <= debt w /\
  repayment w <= next_ms w - tick w - 1 /\
  repayment w <= 65535.
Proof.
  intros Hv H. pose proof (v7_gap_exact w Hv H) as Hg.
  destruct Hv as [Hd Ht]. unfold in_uint64 in *.
  unfold repayment. destruct (debt w =? 0) eqn:E; [lia|].
  rewrite MY_MIN_spec, Hg.
  pose proof (uint16_range (next_ms w - tick w - 1)).
  pose proof (uint16_le (next_ms w - tick w - 1)).
  lia.
Qed.

Lemma v7_step_advance_exact w :
  valid w -> tick w < next_ms w ->
  tick (exec my_uuid_v7 w) = next_ms w - repayment w /\
  debt (exec my_uuid_v7 w) = debt w - repayment w.
Proof.
  intros Hv H.
  destruct (v7_step_advance w H) as (Ht & Hd).
  destruct (v7_repayment_bounds w Hv H) as (Hr1 & Hr2 & _).
  pose proof (v7_next_ms_range w) as Hn.
  destruct Hv as [Hvd Hvt]. unfold in_uint64 in *.
  rewrite Ht, Hd. unfold repayment in *.
  destruct (debt w =? 0) eqn:E; rewrite ?E in *.
  - lia.
  - set (d := MY_MIN _ _) in *.
    rewrite !sub64_small; unfold UINT64_MAX; lia.
Qed.

Lemma v7_step_valid w : valid w -> valid (exec my_uuid_v7 w).
Proof.
  intros Hv.
  destruct (Z.lt_ge_cases (tick w) (next_ms w)) as [H|H].
  - destruct (v7_step_advance_exact w Hv H) as [Ht Hd].
    destruct (v7_repayment_bounds w Hv H) as (Hr1 & Hr2 & _).
    pose proof (v7_next_ms_range w) as Hn.
    destruct Hv as [Hvd Hvt]. unfold valid, in_uint64 in *.
    rewrite Ht, Hd. lia.
  - destruct (v7_step_stalled w H) as (Ht & Hd).
    unfold valid. rewrite Ht, Hd. split; apply uint64_range.
Qed.

Lemma v7_step_increase w :
  valid w -> tick w < UINT64_MAX -> tick w < tick (exec my_uuid_v7 w).
Proof.
  intros Hv Hmax.
  destruct (Z.lt_ge_cases (tick w) (next_ms w)) as [H|H].
  - destruct (v7_step_advance_exact w Hv H) as [Ht _].
    destruct (v7_repayment_bounds w Hv H) as (_ & Hr2 & _).
    rewrite Ht. lia.
  - destruct (v7_step_stalled w H) as (Ht & _).
    destruct Hv as [_ Hvt]. unfold in_uint64 in Hvt.
    rewrite Ht, add64_small; lia.
Qed.

Lemma v7_run_valid K : forall w, valid w -> valid (run my_uuid_v7 K w).
Proof.
  induction K as [|k IH]; intros w Hv; cbn [run]; [exact Hv|].
  apply IH, v7_step_valid, Hv.
Qed.

Lemma v7_ticks_above K :
  forall w, valid w -> unsaturated K w ->
            Forall (fun t => tick w < t) (ticks K w).
Proof.
  induction K as [|k IH]; intros w Hv Hu.
  - constructor.
  - destruct Hu as [Hmax Hu]. unfold ticks in *. cbn [states map].
    pose proof (v7_step_increase w Hv Hmax) as Hlt.
    constructor; [exact Hlt|].
    eapply Forall_impl; [|apply IH; [apply v7_step_valid, Hv | exact Hu]].
    cbn. intros t Ht. lia.
Qed.

Lemma v7_ticks_sorted K :
  forall w, valid w -> unsaturated K w ->
            StronglySorted Z.lt (tick w :: ticks K w).
Proof.
  induction K as [|k IH]; intros w Hv Hu.
  - constructor; constructor.
  - constructor; [|apply v7_ticks_above; assumption].
    destruct Hu as [Hmax Hu]. unfold ticks in *. cbn [states map].
    apply IH; [apply v7_step_valid, Hv | exact Hu].
Qed.

Lemma v7_reachable_valid w : reachable w -> valid w.
Proof.
  induction 1 as [o|w _ IH|w _ IH _|w _ IH].
  - unfold valid, in_uint64, tick, debt. cbn. lia.
  - revert IH. unfold valid. start w. crunch; cbn; auto.
    intros [_ Ht]. split; [unfold in_uint64; lia | exact Ht].
  - apply v7_step_valid, IH.
  - revert IH. unfold valid. start w. crunch; cbn; auto.
Qed.

End V7Facts.

(** ** Byte packing *)

Lemma mi_intstore_length n A : List.length (mi_intstore n A) = n.
Proof. induction n as [|k IH]; cbn; [reflexivity | now rewrite IH]. Qed.

Lemma be_fold_acc bs :
  forall acc,
    fold_left (fun a b => a * 256 + b) bs acc =
    acc * 256 ^ Z.of_nat (List.length bs) + be_value bs.
Proof.
  unfold be_value. induction bs as [|b bs IH]; intros acc.
  - cbn. lia.
  - cbn [fold_left List.length]. rewrite IH, (IH (0 * 256 + b)).
    rewrite Nat2Z.inj_succ, Z.pow_succ_r by lia. lia.
Qed.

Lemma be_value_cons b bs :
  be_value (b :: bs) = b * 256 ^ Z.of_nat (List.length bs) + be_value bs.
Proof. unfold be_value at 1. cbn [fold_left]. rewrite be_fold_acc. lia. Qed.

Lemma be_value_app l1 l2 :
  be_value (l1 ++ l2) = be_value l1 * 256 ^ Z.of_nat (List.length l2) + be_value l2.
Proof.
  unfold be_value at 1 2. rewrite fold_left_app, be_fold_acc. reflexivity.
Qed.

(** Reading back what [mi_intstore] wrote gives the low [n] bytes. *)
Lemma be_value_mi_intstore n A :
  be_value (mi_intstore n A) = A mod 2 ^ (8 * Z.of_nat n).
Proof.
  induction n as [|k IH].
  - cbn. now rewrite Z.mod_1_r.
  - cbn [mi_intstore]. rewrite be_value_cons, mi_intstore_length, IH.
    unfold uchar. rewrite Z.shiftr_div_pow2 by lia.
    replace (256 ^ Z.of_nat k) with (2 ^ (8 * Z.of_nat k))
      by (change 256 with (2 ^ 8); rewrite <- Z.pow_mul_r; lia).
    replace (8 * Z.of_nat (S k)) with (8 * Z.of_nat k + 8) by lia.
    rewrite Z.pow_add_r by lia.
    rewrite Z.rem_mul_r by lia. lia.
Qed.

Lemma packed_timestamp_field a b c :
  timestamp_field (mi_int6store a ++ mi_int2store b ++ mi_int8store c) = a mod 2 ^ 48.
Proof.
  unfold timestamp_field, mi_int6store.
  rewrite firstn_app, mi_intstore_length, Nat.sub_diag, firstn_O, app_nil_r.
  rewrite firstn_all2 by (rewrite mi_intstore_length; lia).
  apply (be_value_mi_intstore 6).
Qed.

Lemma packed_field_6_7 a b c :
  field_6_7 (mi_int6store a ++ mi_int2store b ++ mi_int8store c) = b mod 2 ^ 16.
Proof.
  unfold field_6_7, mi_int6store, mi_int2store.
  rewrite skipn_app, mi_intstore_length, Nat.sub_diag, skipn_O.
  rewrite skipn_all2 by (rewrite mi_intstore_length; lia).
  cbn [app].
  rewrite firstn_app, mi_intstore_length, Nat.sub_diag, firstn_O, app_nil_r.
  rewrite firstn_all2 by (rewrite mi_intstore_length; lia).
  apply (be_value_mi_intstore 2).
Qed.

Lemma packed_length a b c :
  List.length (mi_int6store a ++ mi_int2store b ++ mi_int8store c) = 16%nat.
Proof. reflexivity. Qed.

Lemma packed_byte_6 a b c :
  byte_at (mi_int6store a ++ mi_int2store b ++ mi_int8store c) 6 = uchar (Z.shiftr b 8).
Proof. reflexivity. Qed.

Lemma packed_byte_8 a b c :
  byte_at (mi_int6store a ++ mi_int2store b ++ mi_int8store c) 8 = uchar (Z.shiftr c 56).
Proof. reflexivity. Qed.

(** ** Version and variant tags *)

Lemma uchar_land z : uchar z = Z.land z (Z.ones 8).
Proof. unfold uchar. now rewrite Z.land_ones by lia. Qed.

Lemma uint16_land z : uint16 z = Z.land z (Z.ones 16).
Proof. unfold uint16. now rewrite Z.land_ones by lia. Qed.

Lemma uint64_land z : uint64 z = Z.land z (Z.ones 64).
Proof. unfold uint64. now rewrite Z.land_ones by lia. Qed.

(** The high nibble of the byte stored at offset 6 is the high nibble of
    the version constant, whatever the payload. *)
Lemma version_nibble payload version :
  Z.shiftr (uchar (Z.shiftr (uint16 (Z.lor (Z.land payload 0x0FFF) version)) 8)) 4
  = Z.land (Z.shiftr version 12) 15.
Proof.
  rewrite uchar_land, uint16_land.
  rewrite !Z.shiftr_land, !Z.shiftr_shiftr by lia.
  rewrite Z.shiftr_lor, !Z.shiftr_land.
  change (Z.shiftr 0x0FFF (8 + 4)) with 0.
  change (Z.shiftr (Z.ones 16) (8 + 4)) with 15.
  change (Z.shiftr (Z.ones 8) 4) with 15.
  rewrite Z.land_0_r, Z.lor_0_l, <- Z.land_assoc.
  reflexivity.
Qed.

(** The two top bits of the byte stored at offset 8 are binary 10. *)
Lemma variant_bits payload :
  Z.shiftr
    (uchar (Z.shiftr (uint64 (Z.lor (Z.land payload 0x3FFFFFFFFFFFFFFF)
                                    0x8000000000000000)) 56)) 6 = 2.
Proof.
  rewrite uchar_land, uint64_land.
  rewrite !Z.shiftr_land, !Z.shiftr_shiftr by lia.
  rewrite Z.shiftr_lor, !Z.shiftr_land.
  change (Z.shiftr 0x3FFFFFFFFFFFFFFF (56 + 6)) with 0.
  change (Z.shiftr 0x8000000000000000 (56 + 6)) with 2.
  change (Z.shiftr (Z.ones 64) (56 + 6)) with 3.
  change (Z.shiftr (Z.ones 8) 6) with 3.
  rewrite Z.land_0_r, Z.lor_0_l.
  reflexivity.
Qed.

(** ** The sub-millisecond field *)

Module SubMsScale.

Import MyUuidV7SubMs.

Lemma below_1000_listed r : 0 <= r < 1000 -> In r (map Z.of_nat (seq 0 1000)).
Proof.
  intros H. apply in_map_iff. exists (Z.to_nat r). split; [lia|].
  apply in_seq. lia.
Qed.

(** The binary64 product, truncated, is the integer quotient on every
    remainder the code can form. *)
Lemma scale_table :
  forallb (fun r => sub_ms_precision_of r =? 4096 * r / 1000)
          (map Z.of_nat (seq 0 1000)) = true.
Proof. vm_compute. reflexivity. Qed.

Lemma sub_ms_precision_of_mod tv :
  sub_ms_precision_of tv = sub_ms_precision_of (tv mod 1000).
Proof.
  unfold sub_ms_precision_of. rewrite Z.mod_mod by lia. reflexivity.
Qed.

Lemma sub_ms_precision_of_spec tv :
  sub_ms_precision_of tv = 4096 * (tv mod 1000) / 1000.
Proof.
  rewrite sub_ms_precision_of_mod.
  pose proof (Z.mod_pos_bound tv 1000 ltac:(lia)) as Hr.
  pose proof scale_table as T. rewrite forallb_forall in T.
  apply Z.eqb_eq, T, below_1000_listed, Hr.
Qed.

Lemma scale_increasing a b :
  0 <= a -> a < b -> 4096 * a / 1000 < 4096 * b / 1000.
Proof. intros Ha Hab. Z.to_euclidean_division_equations. lia. Qed.

Lemma scale_range r : 0 <= r < 1000 -> 0 <= 4096 * r / 1000 <= 4091.
Proof. intros H. Z.to_euclidean_division_equations. lia. Qed.

End SubMsScale.

(** ** One call of the random generator *)

Module V4Step.

Import MyUuidV4.

Ltac simp :=
  cbv beta iota zeta delta
    [statics os my_uuid_v4_inited hrtime hr_pos random rnd_pos trace fst snd negb].

Ltac crunch :=
  repeat (simp;
          match goal with
          | H : ?f ?n = pair _ _ |- context [?f ?n] => rewrite H
          | |- context [if ?c then _ else _] => destruct c eqn:?
          end);
  simp.

Ltac start w :=
  destruct w as [[i] [h hp r rp t]];
  unfold my_uuid_v4, is_random_bits_generation_successful; monad_unfold; simp;
  destruct (r rp) as [ok1 v1] eqn:Hrnd1;
  destruct (r (S rp)) as [ok2 v2] eqn:Hrnd2;
  destruct (r (S (S rp))) as [ok3 v3] eqn:Hrnd3.

Lemma v4_step_output random_b random_c w :
  exists a b c : Z,
    eval (my_uuid_v4 random_b random_c) w =
    mi_int6store a
    ++ mi_int2store (uint16 (Z.lor (Z.land b UUID_VERSION_MASK) UUID_VERSION))
    ++ mi_int8store (uint64 (Z.lor (Z.land c UUID_VARIANT_MASK) UUID_VARIANT)).
Proof.
  start w. crunch; do 3 eexists; reflexivity.
Qed.

(** The events of a call, from the answers the CSPRNG has in store: the
    draws stop at the first failure, which is reported. *)
Lemma v4_step_trace random_b random_c w :
  let answer n := fst (random (os w) (n + rnd_pos (os w))) in
  trace (os (exec (my_uuid_v4 random_b random_c) w)) =
  trace (os w) ++
  (if answer 0%nat then
     if answer 1%nat then
       if answer 2%nat then
         [ev_random_bytes 8 true; ev_random_bytes 2 true; ev_random_bytes 8 true]
       else
         [ev_random_bytes 8 true; ev_random_bytes 2 true; ev_random_bytes 8 false;
          ev_printf_error error_message]
     else
       [ev_random_bytes 8 true; ev_random_bytes 2 false;
        ev_printf_error error_message]
   else
     [ev_random_bytes 8 false; ev_printf_error error_message]).
Proof.
  cbn zeta. start w. cbn [Nat.add]. rewrite Hrnd1, Hrnd2, Hrnd3.
  crunch; try discriminate; rewrite <- ?app_assoc; reflexivity.
Qed.

End V4Step.

(** ** Sequences of calls *)

Lemma StronglySorted_map_in {A B : Type} (R : A -> A -> Prop) (R' : B -> B -> Prop)
      (f : A -> B) (l : list A) :
  (forall x y, In x l -> In y l -> R x y -> R' (f x) (f y)) ->
  StronglySorted R l -> StronglySorted R' (map f l).
Proof.
  intros Hf Hs. induction Hs as [|a l Hs IH Ha]; cbn [map].
  - constructor.
  - constructor.
    + apply IH. intros x y Hx Hy. apply Hf; now right.
    + apply Forall_forall. intros y Hy. apply in_map_iff in Hy.
      destruct Hy as (x & <- & Hx).
      apply Hf; [now left | now right |].
      rewrite Forall_forall in Ha. now apply Ha.
Qed.

Lemma StronglySorted_lt_NoDup (l : list Z) : StronglySorted Z.lt l -> NoDup l.
Proof.
  induction 1 as [|a l Hs IH Ha]; constructor; [|exact IH].
  intros Hin. rewrite Forall_forall in Ha. specialize (Ha a Hin). lia.
Qed.

Lemma land_low_48 z : uint64 (Z.land z 0xFFFFFFFFFFFF) = z mod 2 ^ 48.
Proof.
  change 0xFFFFFFFFFFFF with (Z.ones 48). rewrite Z.land_ones by lia.
  apply uint64_id. unfold in_uint64.
  pose proof (Z.mod_pos_bound z (2 ^ 48) ltac:(lia)). lia.
Qed.

Module V7Runs.

Import MyUuidV7 V7 V7Step V7Facts.

Lemma v7_ticks_range K :
  forall w, valid w -> Forall in_uint64 (ticks K w).
Proof.
  induction K as [|k IH]; intros w Hv; unfold ticks in *; cbn [states map].
  - constructor.
  - pose proof (v7_step_valid w Hv) as Hv'.
    constructor; [apply Hv' | apply IH, Hv'].
Qed.

Lemma v7_bounded_unsaturated K :
  forall w, tick w < UINT64_MAX ->
            Forall (fun t => t < UINT64_MAX) (ticks K w) ->
            unsaturated K w.
Proof.
  induction K as [|k IH]; intros w Hw Hb; cbn [unsaturated]; [exact I|].
  unfold ticks in *. cbn [states map] in Hb. inversion Hb; subst.
  split; [exact Hw | apply IH; assumption].
Qed.

(** The ticks of a run are strictly increasing as long as none of them
    is the largest [uint64]. *)
Lemma v7_ticks_sorted_bounded K w :
  valid w -> Forall (fun t => t < UINT64_MAX) (ticks K w) ->
  StronglySorted Z.lt (ticks K w).
Proof.
  intros Hv Hb. destruct K as [|k]; [constructor|].
  unfold ticks in *. cbn [states map] in *. inversion Hb; subst.
  apply (v7_ticks_sorted k (exec my_uuid_v7 w)).
  - apply v7_step_valid, Hv.
  - apply v7_bounded_unsaturated; assumption.
Qed.

Lemma v7_step_timestamp w :
  timestamp_field (eval my_uuid_v7 w) = tick (exec my_uuid_v7 w) mod 2 ^ 48.
Proof.
  destruct (v7_step_output w) as (a & b & ->).
  rewrite packed_timestamp_field, land_low_48. apply Z.mod_mod. lia.
Qed.

Lemma v7_outputs_timestamps K :
  forall w, map timestamp_field (outputs my_uuid_v7 K w)
            = map (fun t => t mod 2 ^ 48) (ticks K w).
Proof.
  induction K as [|k IH]; intros w; unfold ticks in *; cbn [outputs states map].
  - reflexivity.
  - now rewrite v7_step_timestamp, IH.
Qed.

Lemma v7_outputs_length K : forall w, List.length (outputs my_uuid_v7 K w) = K.
Proof. induction K as [|k IH]; intros w; cbn; [reflexivity | now rewrite IH]. Qed.

End V7Runs.

Module SubMsRuns.

Import MyUuidV7SubMs V7SubMs SubMsStep SubMsFacts.

Lemma subms_ticks_range K :
  forall w, valid w -> Forall in_uint64 (ticks K w).
Proof.
  induction K as [|k IH]; intros w Hv; unfold ticks in *; cbn [states map].
  - constructor.
  - pose proof (subms_step_valid w Hv) as Hv'.
    constructor; [apply Hv' | apply IH, Hv'].
Qed.

Lemma subms_bounded_unsaturated K :
  forall w, tick w < UINT64_MAX ->
            Forall (fun t => t < UINT64_MAX) (ticks K w) ->
            unsaturated K w.
Proof.
  induction K as [|k IH]; intros w Hw Hb; cbn [unsaturated]; [exact I|].
  unfold ticks in *. cbn [states map] in Hb. inversion Hb; subst.
  split; [exact Hw | apply IH; assumption].
Qed.

Lemma subms_ticks_sorted_bounded K w :
  valid w -> Forall (fun t => t < UINT64_MAX) (ticks K w) ->
  StronglySorted Z.lt (ticks K w).
Proof.
  intros Hv Hb. destruct K as [|k]; [constructor|].
  unfold ticks in *. cbn [states map] in *. inversion Hb; subst.
  apply (subms_ticks_sorted k (exec my_uuid_v7 w)).
  - apply subms_step_valid, Hv.
  - apply subms_bounded_unsaturated; assumption.
Qed.

(** Bytes 0-5 hold the milliseconds of the stored tick. *)
Lemma subms_step_timestamp w :
  timestamp_field (eval my_uuid_v7 w) = (tick (exec my_uuid_v7 w) / 1000) mod 2 ^ 48.
Proof.
  destruct (subms_step_output w) as (rand & ->).
  rewrite packed_timestamp_field, land_low_48. apply Z.mod_mod. lia.
Qed.

(** A payload below 2^12 and the version constant share no bit. *)
Lemma subms_tagged_payload s :
  0 <= s < 4096 ->
  uint16 (Z.lor (Z.land s UUID_VERSION_MASK) UUID_VERSION) = s + 0x7000.
Proof.
  intros Hs. unfold UUID_VERSION_MASK, UUID_VERSION.
  change 0x0FFF with (Z.ones 12). rewrite Z.land_ones by lia.
  rewrite Z.mod_small by (change (2 ^ 12) with 4096; lia).
  assert (Hd : Z.land s 0x7000 = 0).
  { replace s with (Z.land s (Z.ones 12))
      by (rewrite Z.land_ones by lia; apply Z.mod_small; change (2 ^ 12) with 4096; lia).
    rewrite <- Z.land_assoc. change (Z.land (Z.ones 12) 0x7000) with 0.
    apply Z.land_0_r. }
  rewrite <- Z.lxor_lor by exact Hd.
  rewrite <- Z.add_nocarry_lxor by exact Hd.
  unfold uint16. apply Z.mod_small. change (2 ^ 16) with 65536. lia.
Qed.

(** Bytes 6-7 hold the version and the scaled microseconds. *)
Lemma subms_step_field_6_7 w :
  field_6_7 (eval my_uuid_v7 w)
  = 0x7000 + sub_ms_precision_of (tick (exec my_uuid_v7 w)).
Proof.
  destruct (subms_step_output w) as (rand & ->).
  rewrite packed_field_6_7.
  set (tv := tick (exec my_uuid_v7 w)).
  pose proof (SubMsScale.sub_ms_precision_of_spec tv) as Hs.
  pose proof (SubMsScale.scale_range (tv mod 1000)
                (Z.mod_pos_bound tv 1000 ltac:(lia))) as Hr.
  rewrite <- Hs in Hr.
  rewrite subms_tagged_payload by lia.
  rewrite Z.mod_small by (change (2 ^ 16) with 65536; lia). lia.
Qed.

Lemma subms_step_prefix w :
  prefix_0_7 (eval my_uuid_v7 w)
  = timestamp_field (eval my_uuid_v7 w) * 65536 + field_6_7 (eval my_uuid_v7 w).
Proof.
  destruct (subms_step_output w) as (rand & ->).
  rewrite packed_timestamp_field, packed_field_6_7.
  unfold prefix_0_7.
  match goal with
  | |- be_value (firstn 8 (mi_int6store ?a ++ mi_int2store ?b ++ _)) = _ =>
      change (be_value (mi_int6store a ++ mi_int2store b)
              = a mod 2 ^ 48 * 65536 + b mod 2 ^ 16)
  end.
  unfold mi_int6store, mi_int2store.
  rewrite be_value_app, !be_value_mi_intstore, mi_intstore_length.
  reflexivity.
Qed.

Lemma subms_key_of_tick_increasing a b :
  0 <= a -> a < b -> b < 1000 * 2 ^ 48 -> key_of_tick a < key_of_tick b.
Proof.
  intros Ha Hab Hb. unfold key_of_tick.
  assert (Hqa : 0 <= a / 1000 < 2 ^ 48)
    by (split; [apply Z.div_pos; lia | apply Z.div_lt_upper_bound; lia]).
  assert (Hqb : 0 <= b / 1000 < 2 ^ 48)
    by (split; [apply Z.div_pos; lia | apply Z.div_lt_upper_bound; lia]).
  rewrite (Z.mod_small (a / 1000)), (Z.mod_small (b / 1000)) by assumption.
  pose proof (Z.div_le_mono a b 1000 ltac:(lia) ltac:(lia)) as Hq.
  pose proof (Z.div_mod a 1000 ltac:(lia)) as Ea.
  pose proof (Z.div_mod b 1000 ltac:(lia)) as Eb.
  pose proof (Z.mod_pos_bound a 1000 ltac:(lia)) as Ra.
  pose proof (Z.mod_pos_bound b 1000 ltac:(lia)) as Rb.
  pose proof (SubMsScale.scale_range _ Ra) as Sa.
  pose proof (SubMsScale.scale_range _ Rb) as Sb.
  destruct (Z.eq_dec (a / 1000) (b / 1000)) as [E|E].
  - rewrite E in *.
    assert (Hr : a mod 1000 < b mod 1000) by lia.
    pose proof (SubMsScale.scale_increasing _ _ (proj1 Ra) Hr). lia.
  - lia.
Qed.

Lemma subms_ms_monotone a b : 0 <= a -> a <= b -> b < 1000 * 2 ^ 48 ->
  (a / 1000) mod 2 ^ 48 <= (b / 1000) mod 2 ^ 48.
Proof.
  intros Ha Hab Hb.
  assert (Hqa : 0 <= a / 1000 < 2 ^ 48)
    by (split; [apply Z.div_pos; lia | apply Z.div_lt_upper_bound; lia]).
  assert (Hqb : 0 <= b / 1000 < 2 ^ 48)
    by (split; [apply Z.div_pos; lia | apply Z.div_lt_upper_bound; lia]).
  rewrite (Z.mod_small (a / 1000)), (Z.mod_small (b / 1000)) by assumption.
  apply Z.div_le_mono; lia.
Qed.

Lemma subms_outputs_timestamps K :
  forall w, map timestamp_field (outputs my_uuid_v7 K w)
            = map (fun t => (t / 1000) mod 2 ^ 48) (ticks K w).
Proof.
  induction K as [|k IH]; intros w; unfold ticks in *; cbn [outputs states map].
  - reflexivity.
  - now rewrite subms_step_timestamp, IH.
Qed.

Lemma subms_outputs_prefixes K :
  forall w, map prefix_0_7 (outputs my_uuid_v7 K w) = map key_of_tick (ticks K w).
Proof.
  induction K as [|k IH]; intros w; unfold ticks in *; cbn [outputs states map].
  - reflexivity.
  - rewrite IH. f_equal.
    rewrite subms_step_prefix, subms_step_timestamp, subms_step_field_6_7.
    now rewrite SubMsScale.sub_ms_precision_of_spec.
Qed.

End SubMsRuns.

(** ** A clock that stands still *)

Lemma triangle_succ K : triangle (S K) = triangle K + Z.of_nat K + 1.
Proof.
  unfold triangle. rewrite Nat2Z.inj_succ.
  replace (Z.succ (Z.of_nat K) * (Z.succ (Z.of_nat K) + 1))
    with (Z.of_nat K * (Z.of_nat K + 1) + (Z.of_nat K + 1) * 2) by lia.
  rewrite Z.div_add by lia. lia.
Qed.

Lemma triangle_nonneg K : 0 <= triangle K.
Proof. unfold triangle. apply Z.div_pos; lia. Qed.

Lemma stalled_ticks_shift (c j : Z) (k : nat) :
  map (fun i => c + j + Z.of_nat i) (seq 2 k)
  = map (fun i => c + (j + 1) + Z.of_nat i) (seq 1 k).
Proof.
  rewrite <- (seq_shift k 1), map_map. apply map_ext. intros i. lia.
Qed.

Module V7Stall.

Import MyUuidV7 V7 V7Step V7Facts.

(** From a tick [j] units ahead of a clock that keeps reading [c], the
    [i]-th call stores [c + j + i] and adds [j + i] to the debt. *)
Lemma v7_stalled_run K :
  forall w c j,
    valid w ->
    (forall n, uint64 (hrtime (os w) n) / 1000 = c) ->
    tick w = c + j -> 0 <= c -> 0 <= j ->
    c + j + Z.of_nat K <= UINT64_MAX ->
    ticks K w = map (fun i => c + j + Z.of_nat i) (seq 1 K) /\
    debt (run my_uuid_v7 K w) = uint64 (debt w + Z.of_nat K * j + triangle K).
Proof.
  induction K as [|k IH]; intros w c j Hv Hclk Ht Hc Hj Hmax.
  - cbn [run seq map]. unfold ticks, triangle. cbn [states map]. split; [reflexivity|].
    replace (debt w + Z.of_nat 0 * j + Z.of_nat 0 * (Z.of_nat 0 + 1) / 2) with (debt w)
      by (cbn; lia).
    symmetry. apply uint64_id, Hv.
  - assert (Hn : next_ms w = c) by (unfold next_ms, next_hrtime; apply Hclk).
    assert (Hst : next_ms w <= tick w) by lia.
    destruct (v7_step_stalled w Hst) as [Ht' Hd'].
    destruct (v7_step_env w) as (Hh & _).
    rewrite Nat2Z.inj_succ in Hmax.
    assert (Ht1 : tick (exec my_uuid_v7 w) = c + (j + 1)).
    { rewrite Ht', Ht. rewrite add64_small; lia. }
    assert (Hd1 : debt (exec my_uuid_v7 w) = uint64 (debt w + (j + 1))).
    { rewrite Hd'. unfold adjusted_debt. rewrite Hn, Ht.
      replace (sub64 (c + j) c) with j
        by (symmetry; replace j with (c + j - c) at 2 by lia; apply sub64_small; lia).
      rewrite (add64_small j 1) by lia. reflexivity. }
    destruct (IH (exec my_uuid_v7 w) c (j + 1)) as [IHt IHd];
      [apply v7_step_valid, Hv | intros n; rewrite Hh; apply Hclk
       | exact Ht1 | lia | lia | lia |].
    split.
    + unfold ticks in *. cbn [states map seq]. rewrite IHt.
      rewrite stalled_ticks_shift. f_equal.
      fold (tick (exec my_uuid_v7 w)). rewrite Ht1, Nat2Z.inj_succ. cbn. lia.
    + cbn [run]. rewrite IHd, Hd1, <- Z.add_assoc, uint64_add_idemp.
      f_equal. rewrite triangle_succ, Nat2Z.inj_succ. lia.
Qed.

End V7Stall.

Module SubMsStall.

Import MyUuidV7SubMs V7SubMs SubMsStep SubMsFacts.

(** The same for the microsecond generator, as long as the debt stays
    within the ceiling: the calls then never sleep. *)
Lemma subms_stalled_run K :
  forall w c j,
    valid w ->
    (forall n, uint64 (hrtime (os w) n) = c) ->
    tick w = c + j -> 0 <= c -> 0 <= j ->
    c + j + Z.of_nat K <= UINT64_MAX ->
    debt w + Z.of_nat K * j + triangle K <= MAX_BORROWED_MICROSECONDS ->
    ticks K w = map (fun i => c + j + Z.of_nat i) (seq 1 K) /\
    debt (run my_uuid_v7 K w) = debt w + Z.of_nat K * j + triangle K /\
    sleeps (trace (os (run my_uuid_v7 K w))) = sleeps (trace (os w)).
Proof.
  induction K as [|k IH]; intros w c j Hv Hclk Ht Hc Hj Hmax Hceil.
  - cbn [run seq map]. unfold ticks, triangle. cbn [states map].
    repeat split. cbn. lia.
  - assert (Hn : next_hrtime w = c) by (unfold next_hrtime; apply Hclk).
    assert (Hst : next_hrtime w <= tick w) by lia.
    destruct (subms_step_stalled w Hst) as (Ht' & Hd' & Hs').
    destruct (subms_step_env w) as (Hh & _).
    rewrite Nat2Z.inj_succ in Hmax, Hceil. rewrite triangle_succ in Hceil.
    pose proof (triangle_nonneg k) as Htri.
    pose proof Hv as [[Hd0 _] _].
    assert (Ht1 : tick (exec my_uuid_v7 w) = c + (j + 1)).
    { rewrite Ht', Ht. rewrite add64_small; lia. }
    assert (Ha : adjusted_debt w = debt w + (j + 1)).
    { unfold adjusted_debt. rewrite Hn, Ht.
      replace (sub64 (c + j) c) with j
        by (symmetry; replace j with (c + j - c) at 2 by lia; apply sub64_small; lia).
      rewrite (add64_small j 1) by lia.
      apply add64_small. unfold MAX_BORROWED_MICROSECONDS, UINT64_MAX in *. nia. }
    assert (Hle : (adjusted_debt w >? MAX_BORROWED_MICROSECONDS) = false).
    { rewrite Ha, Z.gtb_ltb. apply Z.ltb_ge.
      unfold MAX_BORROWED_MICROSECONDS in *. nia. }
    rewrite Hle in Hd', Hs'. rewrite app_nil_r in Hs'.
    destruct (IH (exec my_uuid_v7 w) c (j + 1)) as (IHt & IHd & IHs);
      [apply subms_step_valid, Hv | intros n; rewrite Hh; apply Hclk
       | exact Ht1 | lia | lia | lia | rewrite Hd', Ha; lia |].
    repeat split.
    + unfold ticks in *. cbn [states map seq]. rewrite IHt.
      rewrite stalled_ticks_shift. f_equal.
      fold (tick (exec my_uuid_v7 w)). rewrite Ht1, Nat2Z.inj_succ. cbn. lia.
    + cbn [run]. rewrite IHd, Hd', Ha, triangle_succ, Nat2Z.inj_succ. lia.
    + cbn [run]. rewrite IHs. exact Hs'.
Qed.

End SubMsStall.

(* ------------------------------------------------------------------ *)
(** * The generators' contract *)

(** C7: in the random generator every failing CSPRNG draw is reported to
    the fatal-error collaborator exactly once (the call logs as many
    reports as failed draws; the draws stop at the first failure), and the
    call still returns with the 16 bytes of the buffer written. *)
Theorem C7_entropy_failure_reported_once_per_failing_draw :
  forall (random_b random_c : Z) (w : world MyUuidV4.globals),
    let call := MyUuidV4.my_uuid_v4 random_b random_c in
    exists evs : list event,
      trace (os (exec call w)) = trace (os w) ++ evs /\
      reports evs = failed_draws evs /\
      (failed_draws evs <= 1)%nat /\
      (1 <= draws evs <= 3)%nat /\
      List.length (eval call w) = 16%nat.
Proof.
  intros random_b random_c w call. subst call.
  pose proof (V4Step.v4_step_trace random_b random_c w) as Ht. cbn zeta in Ht.
  destruct (V4Step.v4_step_output random_b random_c w) as (a & b & c & Ho).
  eexists. split; [exact Ht|].
  rewrite Ho, packed_length.
  destruct (fst (random (os w) (0 + rnd_pos (os w))));
    [destruct (fst (random (os w) (1 + rnd_pos (os w))));
     [destruct (fst (random (os w) (2 + rnd_pos (os w))))|]|];
    cbn; repeat split; lia.
Qed.

(** C8: whatever the random bytes and the clock, the top 4 bits of byte 6
    are the version (4 for [my_uuid_v4], 7 for both [my_uuid_v7]) and the
    top 2 bits of byte 8 are binary 10. *)
Theorem C8_version_and_variant_tags :
  (forall (random_b random_c : Z) (w : world MyUuidV4.globals),
      let to := eval (MyUuidV4.my_uuid_v4 random_b random_c) w in
      Z.shiftr (byte_at to 6) 4 = 4 /\ Z.shiftr (byte_at to 8) 6 = 2) /\
  (forall w : world MyUuidV7.globals,
      let to := eval MyUuidV7.my_uuid_v7 w in
      Z.shiftr (byte_at to 6) 4 = 7 /\ Z.shiftr (byte_at to 8) 6 = 2) /\
  (forall w : world MyUuidV7SubMs.globals,
      let to := eval MyUuidV7SubMs.my_uuid_v7 w in
      Z.shiftr (byte_at to 6) 4 = 7 /\ Z.shiftr (byte_at to 8) 6 = 2).
Proof.
  split; [|split].
  - intros rb rc w to. subst to.
    destruct (V4Step.v4_step_output rb rc w) as (a & b & c & ->).
    rewrite packed_byte_6, packed_byte_8. split.
    + apply version_nibble.
    + apply variant_bits.
  - intros w to. subst to.
    destruct (V7Step.v7_step_output w) as (a & b & ->).
    rewrite packed_byte_6, packed_byte_8. split.
    + apply version_nibble.
    + apply variant_bits.
  - intros w to. subst to.
    destruct (SubMsStep.subms_step_output w) as (rand & ->).
    rewrite packed_byte_6, packed_byte_8. split.
    + apply version_nibble.
    + apply variant_bits.
Qed.

(* ------------------------------------------------------------------ *)
(** * Monotonicity of the v7 generators *)

(** C1, as the code has it: in both v7 generators the statics of every
    reachable state are in range, and from any such state a call whose
    stored tick is not yet the largest [uint64] stores a strictly greater
    tick, whatever the clock returns; so the ticks of a run in which that
    limit is not reached before a call strictly increase. *)
Theorem C1_stored_tick_strictly_increases :
  (forall w, V7.reachable w -> V7.valid w) /\
  (forall w, V7SubMs.reachable w -> V7SubMs.valid w) /\
  (forall w, V7.valid w -> V7.tick w < UINT64_MAX ->
             V7.tick w < V7.tick (exec MyUuidV7.my_uuid_v7 w)) /\
  (forall w, V7SubMs.valid w -> V7SubMs.tick w < UINT64_MAX ->
             V7SubMs.tick w < V7SubMs.tick (exec MyUuidV7SubMs.my_uuid_v7 w)) /\
  (forall K w, V7.valid w -> V7.unsaturated K w ->
               StronglySorted Z.lt (V7.tick w :: V7.ticks K w)) /\
  (forall K w, V7SubMs.valid w -> V7SubMs.unsaturated K w ->
               StronglySorted Z.lt (V7SubMs.tick w :: V7SubMs.ticks K w)).
Proof.
  split; [|split; [|split; [|split; [|split]]]].
  - apply V7Facts.v7_reachable_valid.
  - apply SubMsFacts.subms_reachable_valid.
  - apply V7Facts.v7_step_increase.
  - apply SubMsFacts.subms_step_increase.
  - intros K w. apply V7Facts.v7_ticks_sorted.
  - intros K w. apply SubMsFacts.subms_ticks_sorted.
Qed.

(** C1 at a stalled clock: three calls reading 5 microseconds store the
    ticks 6, 7 and 8 after the initial 0. *)
Lemma C1_witness :
  let w := V7SubMs.started (env_of (fun _ => 5) rnd_ok) in
  V7SubMs.tick w < V7SubMs.tick (exec MyUuidV7SubMs.my_uuid_v7 w) /\
  StronglySorted Z.lt (V7SubMs.tick w :: V7SubMs.ticks 3 w).
Proof.
  intros w.
  assert (Hv : V7SubMs.valid w)
    by (repeat split; vm_compute; try reflexivity; intro; discriminate).
  assert (Hmax : V7SubMs.tick w < UINT64_MAX) by (vm_compute; reflexivity).
  assert (Hu : V7SubMs.unsaturated 3 w) by (repeat split; vm_compute; reflexivity).
  destruct C1_stored_tick_strictly_increases as (_ & _ & _ & Hstep & _ & Hrun).
  exact (conj (Hstep w Hv Hmax) (Hrun 3%nat w Hv Hu)).
Defined.

(** C1 fails at the top of [uint64]: a first call that reads the clock at
    2^64-1 stores that tick, and the next call, whatever it reads, stores
    [uuid_time + 1], which wraps to 0. *)
Lemma C1_counterexample :
  let o := env_of (fun n => if Nat.eqb n 0 then UINT64_MAX else 0) rnd_ok in
  let w1 := exec MyUuidV7SubMs.my_uuid_v7 (V7SubMs.started o) in
  let w2 := exec MyUuidV7SubMs.my_uuid_v7 w1 in
  V7SubMs.reachable w1 /\
  V7SubMs.tick w1 = UINT64_MAX /\
  V7SubMs.tick w2 = 0 /\
  ~ V7SubMs.tick w1 < V7SubMs.tick w2.
Proof.
  repeat split.
  - apply V7SubMs.reach_generate; [|reflexivity].
    apply V7SubMs.reach_init, V7SubMs.reach_start.
  - vm_compute. intro H. discriminate H.
Qed.

(** C2, as the code has it.  In the millisecond generator the timestamp
    fields of sequential calls strictly increase, hence differ pairwise,
    as long as the stored ticks fit the 48 bits of the field.  In the
    sub-millisecond generator the field holds the milliseconds of a
    microsecond tick: it never decreases, and it is bytes 0-7 (the field
    followed by the scaled microseconds) that strictly increase, as long
    as the milliseconds fit 48 bits. *)
Theorem C2_timestamp_fields_of_sequential_calls :
  (forall K w,
      V7.valid w ->
      Forall (fun t => t < 2 ^ 48) (V7.ticks K w) ->
      StronglySorted Z.lt (map timestamp_field (outputs MyUuidV7.my_uuid_v7 K w)) /\
      NoDup (map timestamp_field (outputs MyUuidV7.my_uuid_v7 K w))) /\
  (forall K w,
      V7SubMs.valid w ->
      Forall (fun t => t < 1000 * 2 ^ 48) (V7SubMs.ticks K w) ->
      StronglySorted Z.le (map timestamp_field (outputs MyUuidV7SubMs.my_uuid_v7 K w)) /\
      StronglySorted Z.lt (map prefix_0_7 (outputs MyUuidV7SubMs.my_uuid_v7 K w))).
Proof.
  split.
  - intros K w Hv Hb.
    assert (Hs : StronglySorted Z.lt
                   (map timestamp_field (outputs MyUuidV7.my_uuid_v7 K w))).
    { rewrite V7Runs.v7_outputs_timestamps.
      pose proof (V7Runs.v7_ticks_range K w Hv) as Hr.
      rewrite Forall_forall in Hr, Hb.
      apply StronglySorted_map_in with (R := Z.lt).
      - intros x y Hx Hy Hxy.
        pose proof (Hr x Hx) as [Hx0 _]. pose proof (Hb x Hx). pose proof (Hb y Hy).
        rewrite !Z.mod_small by lia. exact Hxy.
      - apply V7Runs.v7_ticks_sorted_bounded; [exact Hv|].
        apply Forall_forall. intros t Ht. specialize (Hb t Ht).
        unfold UINT64_MAX. lia. }
    split; [exact Hs | apply StronglySorted_lt_NoDup, Hs].
  - intros K w Hv Hb.
    pose proof (SubMsRuns.subms_ticks_range K w Hv) as Hr.
    assert (Hs : StronglySorted Z.lt (V7SubMs.ticks K w)).
    { apply SubMsRuns.subms_ticks_sorted_bounded; [exact Hv|].
      apply Forall_forall. intros t Ht. rewrite Forall_forall in Hb.
      specialize (Hb t Ht). unfold UINT64_MAX. lia. }
    rewrite Forall_forall in Hr, Hb.
    split.
    + rewrite SubMsRuns.subms_outputs_timestamps.
      apply StronglySorted_map_in with (R := Z.lt); [|exact Hs].
      intros x y Hx Hy Hxy. pose proof (Hr x Hx) as [Hx0 _].
      apply SubMsRuns.subms_ms_monotone; [lia | lia | apply Hb, Hy].
    + rewrite SubMsRuns.subms_outputs_prefixes.
      apply StronglySorted_map_in with (R := Z.lt); [|exact Hs].
      intros x y Hx Hy Hxy. pose proof (Hr x Hx) as [Hx0 _].
      apply SubMsRuns.subms_key_of_tick_increasing; [lia | lia | apply Hb, Hy].
Qed.

(** C2 on a clock that advances by one millisecond per call, from 5 ms. *)
Lemma C2_witness :
  let w := V7.started (env_of (fun n => 5000 + 1000 * Z.of_nat n) rnd_ok) in
  StronglySorted Z.lt (map timestamp_field (outputs MyUuidV7.my_uuid_v7 4 w)).
Proof.
  intros w.
  assert (Hv : V7.valid w)
    by (repeat split; vm_compute; try reflexivity; intro; discriminate).
  assert (Et : V7.ticks 4 w = [5; 6; 7; 8]) by (vm_compute; reflexivity).
  assert (Hb : Forall (fun t => t < 2 ^ 48) (V7.ticks 4 w))
    by (rewrite Et; repeat constructor).
  exact (proj1 (proj1 C2_timestamp_fields_of_sequential_calls 4%nat w Hv Hb)).
Defined.

(** C2 fails in the sub-millisecond generator: two sequential calls that
    read the clock at 1000 and 1001 microseconds, a clock that does not
    move backward, both write the timestamp field 1. *)
Lemma C2_counterexample :
  let w := V7SubMs.started (env_of (fun n => 1000 + Z.of_nat n) rnd_ok) in
  V7SubMs.ticks 2 w = [1000; 1001] /\
  map timestamp_field (outputs MyUuidV7SubMs.my_uuid_v7 2 w) = [1; 1].
Proof. split; vm_compute; reflexivity. Qed.

(* ------------------------------------------------------------------ *)
(** * Debt: accrual and backpressure *)

(** C3, as the code has it: on a clock that keeps returning the value the
    stored tick has, the [i]-th of [K] calls stores the tick [c + i], one
    above the previous call's, and adds [i] (its distance to the clock) to
    the debt; after the [K] calls the debt has grown by 1 + 2 + ... + K.
    In the millisecond generator this is modulo 2^64; in the
    sub-millisecond generator it holds as long as the debt stays within
    the ceiling, and then no call sleeps. *)
Theorem C3_stalled_clock_accrues_triangular_debt :
  (forall (K : nat) (w : world MyUuidV7.globals) (c : Z),
      V7.valid w ->
      (forall n, uint64 (hrtime (os w) n) / 1000 = c) ->
      V7.tick w = c ->
      c + Z.of_nat K <= UINT64_MAX ->
      V7.ticks K w = map (fun i => c + Z.of_nat i) (seq 1 K) /\
      V7.debt (run MyUuidV7.my_uuid_v7 K w) = uint64 (V7.debt w + triangle K)) /\
  (forall (K : nat) (w : world MyUuidV7SubMs.globals) (c : Z),
      V7SubMs.valid w ->
      (forall n, uint64 (hrtime (os w) n) = c) ->
      V7SubMs.tick w = c ->
      c + Z.of_nat K <= UINT64_MAX ->
      V7SubMs.debt w + triangle K <= MyUuidV7SubMs.MAX_BORROWED_MICROSECONDS ->
      V7SubMs.ticks K w = map (fun i => c + Z.of_nat i) (seq 1 K) /\
      V7SubMs.debt (run MyUuidV7SubMs.my_uuid_v7 K w) = V7SubMs.debt w + triangle K /\
      sleeps (trace (os (run MyUuidV7SubMs.my_uuid_v7 K w))) = sleeps (trace (os w))).
Proof.
  split.
  - intros K w c Hv Hclk Ht Hmax.
    assert (Hc : 0 <= c) by (destruct Hv as [_ [H0 _]]; lia).
    destruct (V7Stall.v7_stalled_run K w c 0 Hv Hclk) as [H1 H2]; try lia.
    split.
    + rewrite H1. apply map_ext. intros i. lia.
    + rewrite H2. f_equal. lia.
  - intros K w c Hv Hclk Ht Hmax Hceil.
    assert (Hc : 0 <= c) by (destruct Hv as [_ [H0 _]]; lia).
    destruct (SubMsStall.subms_stalled_run K w c 0 Hv Hclk) as (H1 & H2 & H3); try lia.
    repeat split.
    + rewrite H1. apply map_ext. intros i. lia.
    + rewrite H2. lia.
    + exact H3.
Qed.

(** C3 at three calls on a clock stuck at 7 ms, from the tick 7. *)
Lemma C3_witness :
  let w := exec MyUuidV7.my_uuid_v7 (V7.started (env_of (fun _ => 7000) rnd_ok)) in
  V7.ticks 3 w = map (fun i => 7 + Z.of_nat i) (seq 1 3) /\
  V7.debt (run MyUuidV7.my_uuid_v7 3 w) = uint64 (V7.debt w + triangle 3).
Proof.
  intros w.
  assert (Hv : V7.valid w)
    by (repeat split; vm_compute; try reflexivity; intro; discriminate).
  assert (Hclk : forall n, uint64 (hrtime (os w) n) / 1000 = 7)
    by (intros n; vm_compute; reflexivity).
  assert (Ht : V7.tick w = 7) by (vm_compute; reflexivity).
  assert (Hmax : 7 + Z.of_nat 3 <= UINT64_MAX) by (vm_compute; intro; discriminate).
  exact (proj1 C3_stalled_clock_accrues_triangular_debt 3%nat w 7 Hv Hclk Ht Hmax).
Defined.

(** C3 fails on the debt: after two calls on a clock stuck at the stored
    tick the debt is 1 + 2 = 3, not 2. *)
Lemma C3_counterexample :
  let w := V7.started (env_of (fun _ => 0) rnd_ok) in
  V7.tick w = 0 /\ V7.debt w = 0 /\
  V7.ticks 2 w = [1; 2] /\
  V7.debt (run MyUuidV7.my_uuid_v7 2 w) = 3 /\
  V7.debt (run MyUuidV7.my_uuid_v7 2 w) <> 2.
Proof.
  repeat split. vm_compute. intro H. discriminate H.
Qed.

(** C4, as the code has it.  In the sub-millisecond generator a call
    sleeps, once and with the argument [SLEEP_MILLISECONDS] = 250, exactly
    when it takes the stalled branch and the adjusted debt exceeds
    [MAX_BORROWED_MICROSECONDS] = 500000, and it then takes 250000 off the
    adjusted debt; a stalled call within the ceiling keeps the adjusted
    debt, and a call on an advanced clock repays at most 65535: neither
    sleeps.  The millisecond generator has no ceiling: it never sleeps and
    a stalled call always keeps the adjusted debt. *)
Theorem C4_backpressure :
  (forall w : world MyUuidV7SubMs.globals,
      V7SubMs.valid w ->
      let w' := exec MyUuidV7SubMs.my_uuid_v7 w in
      (V7SubMs.tick w < next_hrtime w ->
       sleeps (trace (os w')) = sleeps (trace (os w)) /\
       V7SubMs.debt w' = V7SubMs.debt w - V7SubMs.repayment w /\
       0 <= V7SubMs.repayment w <= 65535) /\
      (next_hrtime w <= V7SubMs.tick w ->
       V7SubMs.adjusted_debt w <= MyUuidV7SubMs.MAX_BORROWED_MICROSECONDS ->
       sleeps (trace (os w')) = sleeps (trace (os w)) /\
       V7SubMs.debt w' = V7SubMs.adjusted_debt w) /\
      (next_hrtime w <= V7SubMs.tick w ->
       MyUuidV7SubMs.MAX_BORROWED_MICROSECONDS < V7SubMs.adjusted_debt w ->
       sleeps (trace (os w')) = sleeps (trace (os w)) ++ [250] /\
       V7SubMs.debt w' = V7SubMs.adjusted_debt w - 250000)) /\
  MyUuidV7SubMs.MAX_BORROWED_MICROSECONDS = 500000 /\
  (forall w : world MyUuidV7.globals,
      let w' := exec MyUuidV7.my_uuid_v7 w in
      sleeps (trace (os w')) = sleeps (trace (os w)) /\
      (V7.next_ms w <= V7.tick w -> V7.debt w' = V7.adjusted_debt w)).
Proof.
  split; [|split; [reflexivity|]].
  - intros w Hv w'. subst w'. split; [|split].
    + intros H.
      destruct (SubMsStep.subms_step_advance w H) as (_ & _ & Hs).
      destruct (SubMsFacts.subms_step_advance_exact w Hv H) as [_ Hd].
      destruct (SubMsFacts.subms_repayment_bounds w Hv H) as (Hr1 & _ & Hr3).
      repeat split; try assumption; lia.
    + intros H Hle.
      destruct (SubMsStep.subms_step_stalled w H) as (_ & Hd & Hs).
      assert (E : (V7SubMs.adjusted_debt w >? MyUuidV7SubMs.MAX_BORROWED_MICROSECONDS)
                  = false) by (rewrite Z.gtb_ltb; apply Z.ltb_ge; exact Hle).
      rewrite E in Hd, Hs. rewrite app_nil_r in Hs. split; assumption.
    + intros H Hgt.
      destruct (SubMsStep.subms_step_stalled w H) as (_ & Hd & Hs).
      assert (E : (V7SubMs.adjusted_debt w >? MyUuidV7SubMs.MAX_BORROWED_MICROSECONDS)
                  = true) by (rewrite Z.gtb_ltb; apply Z.ltb_lt; exact Hgt).
      rewrite E in Hd, Hs. split; [exact Hs|].
      rewrite Hd.
      pose proof (uint64_range
                    (V7SubMs.debt w
                     + add64 (sub64 (V7SubMs.tick w) (next_hrtime w)) 1)) as Hr.
      fold (add64 (V7SubMs.debt w)
                  (add64 (sub64 (V7SubMs.tick w) (next_hrtime w)) 1)) in Hr.
      fold (V7SubMs.adjusted_debt w) in Hr.
      unfold in_uint64 in Hr.
      unfold MyUuidV7SubMs.MAX_BORROWED_MICROSECONDS in *.
      change (500000 / 2) with 250000.
      apply sub64_small. unfold UINT64_MAX. lia.
  - intros w w'. subst w'. split.
    + rewrite V7Step.v7_step_trace, sleeps_app. cbn. apply app_nil_r.
    + intros H. apply (V7Step.v7_step_stalled w H).
Qed.

(** C4 at the thousandth call on a clock stuck at 0: the debt, 499500
    after 999 calls, is adjusted to 500500; the call sleeps and leaves
    250500. *)
Lemma C4_witness :
  let w := run MyUuidV7SubMs.my_uuid_v7 999
               (V7SubMs.started (env_of (fun _ => 0) rnd_ok)) in
  let w' := exec MyUuidV7SubMs.my_uuid_v7 w in
  sleeps (trace (os w')) = sleeps (trace (os w)) ++ [250] /\
  V7SubMs.debt w' = V7SubMs.adjusted_debt w - 250000.
Proof.
  intros w.
  assert (Hv : V7SubMs.valid w)
    by (repeat split; vm_compute; try reflexivity; intro; discriminate).
  assert (H : next_hrtime w <= V7SubMs.tick w) by (vm_compute; intro; discriminate).
  assert (Hgt : MyUuidV7SubMs.MAX_BORROWED_MICROSECONDS < V7SubMs.adjusted_debt w)
    by (vm_compute; reflexivity).
  exact (proj2 (proj2 (proj1 C4_backpressure w Hv)) H Hgt).
Defined.

(** C4 fails in the millisecond generator: a clock that falls back by
    600000 ms pushes the debt to 600001, above 500000, and the call
    neither sleeps nor reduces it. *)
Lemma C4_counterexample :
  let o := env_of (fun n => if Nat.eqb n 0 then 600000000 else 0) rnd_ok in
  let w := exec MyUuidV7.my_uuid_v7 (V7.started o) in
  let w' := exec MyUuidV7.my_uuid_v7 w in
  V7.tick w = 600000 /\ V7.debt w = 0 /\ V7.next_ms w = 0 /\
  V7.debt w' = 600001 /\ 500000 < V7.debt w' /\
  sleeps (trace (os w')) = [].
Proof. repeat split. Qed.

(* ------------------------------------------------------------------ *)
(** * Repayment and entropy failures in the v7 generators *)

(** What the code repays on an advanced clock: the smaller of the debt and
    the gap minus one REDUCED MODULO 2^16, the effect of the [(uint16)]
    cast in [MY_MIN(borrowed, (uint16)(tv - uuid_time - 1))]. *)
Lemma subms_repayment_truncated w :
  V7SubMs.valid w -> V7SubMs.tick w < next_hrtime w ->
  V7SubMs.repayment w =
    (if V7SubMs.debt w =? 0 then 0
     else Z.min (V7SubMs.debt w) ((next_hrtime w - V7SubMs.tick w - 1) mod 2 ^ 16)) /\
  V7SubMs.tick (exec MyUuidV7SubMs.my_uuid_v7 w) = next_hrtime w - V7SubMs.repayment w /\
  V7SubMs.debt (exec MyUuidV7SubMs.my_uuid_v7 w) = V7SubMs.debt w - V7SubMs.repayment w.
Proof.
  intros Hv H. split.
  - unfold V7SubMs.repayment.
    rewrite (SubMsFacts.subms_gap_exact w Hv H), MY_MIN_spec. reflexivity.
  - apply SubMsFacts.subms_step_advance_exact; assumption.
Qed.

Lemma v7_repayment_truncated w :
  V7.valid w -> V7.tick w < V7.next_ms w ->
  V7.repayment w =
    (if V7.debt w =? 0 then 0
     else Z.min (V7.debt w) ((V7.next_ms w - V7.tick w - 1) mod 2 ^ 16)) /\
  V7.tick (exec MyUuidV7.my_uuid_v7 w) = V7.next_ms w - V7.repayment w /\
  V7.debt (exec MyUuidV7.my_uuid_v7 w) = V7.debt w - V7.repayment w.
Proof.
  intros Hv H. split.
  - unfold V7.repayment.
    rewrite (V7Facts.v7_gap_exact w Hv H), MY_MIN_spec. reflexivity.
  - apply V7Facts.v7_step_advance_exact; assumption.
Qed.

(** C5 at a gap of 65537: after one stalled call (tick 1, debt 1) the
    clock reads 65538.  The claim's repayment is min(1, 65536) = 1, so the
    tick 65537 and the debt 0; the code casts 65536 to [uint16], repays
    min(1, 0) = 0, stores the tick 65538 and keeps the debt 1.  Both v7
    generators do so. *)
Theorem C5_repayment_truncated_to_16_bits :
  (let o := env_of (fun n => if Nat.eqb n 0 then 0 else 65538) rnd_ok in
   let w := exec MyUuidV7SubMs.my_uuid_v7 (V7SubMs.started o) in
   let w' := exec MyUuidV7SubMs.my_uuid_v7 w in
   V7SubMs.tick w = 1 /\ V7SubMs.debt w = 1 /\ next_hrtime w = 65538 /\
   Z.min (V7SubMs.debt w) (next_hrtime w - V7SubMs.tick w - 1) = 1 /\
   V7SubMs.repayment w = 0 /\
   V7SubMs.tick w' = 65538 /\ V7SubMs.debt w' = 1) /\
  (let o := env_of (fun n => if Nat.eqb n 0 then 0 else 65538000) rnd_ok in
   let w := exec MyUuidV7.my_uuid_v7 (V7.started o) in
   let w' := exec MyUuidV7.my_uuid_v7 w in
   V7.tick w = 1 /\ V7.debt w = 1 /\ V7.next_ms w = 65538 /\
   Z.min (V7.debt w) (V7.next_ms w - V7.tick w - 1) = 1 /\
   V7.repayment w = 0 /\
   V7.tick w' = 65538 /\ V7.debt w' = 1).
Proof. split; vm_compute; repeat split. Qed.

(** The millisecond generator never reports anything, the sub-millisecond
    one reports its draw when it fails. *)
Lemma v7_never_reports (w : world MyUuidV7.globals) :
  reports (trace (os (exec MyUuidV7.my_uuid_v7 w))) = reports (trace (os w)) /\
  draws (trace (os (exec MyUuidV7.my_uuid_v7 w))) = (draws (trace (os w)) + 2)%nat.
Proof.
  rewrite V7Step.v7_step_trace, reports_app, draws_app. cbn. split; lia.
Qed.

(** C6 on a CSPRNG that fails every draw.  [my_uuid_v7] of
    src/mysys/my_uuid_v7.c makes its two draws, both fail, and nothing is
    reported: the events of the call are the mutex and the two draws.
    [my_uuid_v7] of the sub-millisecond file reports its failed draw once.
    Both write their 16 bytes. *)
Theorem C6_ms_generator_drops_draw_failures :
  (let w := V7.started (env_of (fun _ => 5000) rnd_broken) in
   trace (os (exec MyUuidV7.my_uuid_v7 w)) =
     [ev_mutex_lock; ev_mutex_unlock;
      ev_random_bytes 2 false; ev_random_bytes 8 false] /\
   reports (trace (os (exec MyUuidV7.my_uuid_v7 w))) = 0%nat /\
   List.length (eval MyUuidV7.my_uuid_v7 w) = 16%nat) /\
  (let w := V7SubMs.started (env_of (fun _ => 5000) rnd_broken) in
   trace (os (exec MyUuidV7SubMs.my_uuid_v7 w)) =
     [ev_mutex_lock; ev_mutex_unlock; ev_random_bytes 8 false;
      ev_printf_error MyUuidV7SubMs.error_message] /\
   reports (trace (os (exec MyUuidV7SubMs.my_uuid_v7 w))) = 1%nat /\
   List.length (eval MyUuidV7SubMs.my_uuid_v7 w) = 16%nat) /\
  (forall w : world MyUuidV7.globals,
      reports (trace (os (exec MyUuidV7.my_uuid_v7 w))) = reports (trace (os w))) /\
  (forall w : world MyUuidV7SubMs.globals,
      reports (trace (os (exec MyUuidV7SubMs.my_uuid_v7 w))) =
      (reports (trace (os w))
       + (if fst (random (os w) (rnd_pos (os w))) then 0 else 1))%nat).
Proof.
  split; [|split; [|split]].
  - vm_compute. repeat split.
  - vm_compute. repeat split.
  - intros w. apply v7_never_reports.
  - intros w. apply (SubMsStep.subms_step_report w).
Qed.

(* ------------------------------------------------------------------ *)
(** * The sub-millisecond field and the lifecycle *)

(** C9, as the code has it: the low 12 bits of bytes 6-7 are the scaled
    remainder of the stored tick; the scaling is the integer part of
    4.096 times the remainder, strictly increasing (so injective) on
    0..999, and its values lie in 0..4091, from 0 at 0 to 4091 at 999:
    a thousand of the 4096 values of the 12-bit range. *)
Theorem C9_sub_millisecond_field :
  (forall w : world MyUuidV7SubMs.globals,
      Z.land (field_6_7 (eval MyUuidV7SubMs.my_uuid_v7 w)) 0x0FFF
      = MyUuidV7SubMs.sub_ms_precision_of
          (V7SubMs.tick (exec MyUuidV7SubMs.my_uuid_v7 w))) /\
  (forall tv : Z,
      MyUuidV7SubMs.sub_ms_precision_of tv = 4096 * (tv mod 1000) / 1000) /\
  (forall a b : Z,
      0 <= a -> a < b -> b < 1000 ->
      MyUuidV7SubMs.sub_ms_precision_of a < MyUuidV7SubMs.sub_ms_precision_of b) /\
  (forall r : Z,
      0 <= r < 1000 -> 0 <= MyUuidV7SubMs.sub_ms_precision_of r <= 4091) /\
  MyUuidV7SubMs.sub_ms_precision_of 0 = 0 /\
  MyUuidV7SubMs.sub_ms_precision_of 999 = 4091.
Proof.
  split; [|split; [|split; [|split; [|split]]]].
  - intros w. rewrite SubMsRuns.subms_step_field_6_7.
    set (tv := V7SubMs.tick (exec MyUuidV7SubMs.my_uuid_v7 w)).
    pose proof (SubMsScale.sub_ms_precision_of_spec tv) as Hs.
    pose proof (SubMsScale.scale_range (tv mod 1000)
                  (Z.mod_pos_bound tv 1000 ltac:(lia))) as Hr.
    rewrite <- Hs in Hr.
    change 0x0FFF with (Z.ones 12). rewrite Z.land_ones by lia.
    change (2 ^ 12) with 4096.
    replace (0x7000 + MyUuidV7SubMs.sub_ms_precision_of tv)
      with (MyUuidV7SubMs.sub_ms_precision_of tv + 7 * 4096) by lia.
    rewrite Z.mod_add by lia. apply Z.mod_small. lia.
  - apply SubMsScale.sub_ms_precision_of_spec.
  - intros a b Ha Hab Hb.
    rewrite !SubMsScale.sub_ms_precision_of_spec.
    rewrite (Z.mod_small a), (Z.mod_small b) by lia.
    apply SubMsScale.scale_increasing; assumption.
  - intros r Hr.
    rewrite SubMsScale.sub_ms_precision_of_spec, Z.mod_small by lia.
    apply SubMsScale.scale_range, Hr.
  - vm_compute. reflexivity.
  - vm_compute. reflexivity.
Qed.

(** C9 at the remainders 124 and 125, scaled to 507 and 512. *)
Lemma C9_witness :
  MyUuidV7SubMs.sub_ms_precision_of 124 < MyUuidV7SubMs.sub_ms_precision_of 125 /\
  0 <= MyUuidV7SubMs.sub_ms_precision_of 125 <= 4091.
Proof.
  destruct C9_sub_millisecond_field as (_ & _ & Hmono & Hrange & _).
  split.
  - apply (Hmono 124 125); lia.
  - apply (Hrange 125); lia.
Defined.

(** C9 fails on the image: no remainder is scaled to 4095 (nor to
    anything above 4091), so the image does not cover 0..4095. *)
Lemma C9_counterexample :
  ~ (forall v : Z, 0 <= v <= 4095 ->
       exists r : Z, 0 <= r < 1000 /\ MyUuidV7SubMs.sub_ms_precision_of r = v).
Proof.
  intros H. destruct (H 4095 ltac:(lia)) as (r & Hr & E).
  rewrite SubMsScale.sub_ms_precision_of_spec, Z.mod_small in E by lia.
  pose proof (SubMsScale.scale_range r Hr). lia.
Qed.

(** C10: in both v7 generators [end] followed by [init] leaves the
    generator initialised with the debt at 0 and the stored tick as it
    was, so the first call after the cycle still stores a tick above the
    last one stored before it (short of the largest [uint64], as for any
    call). *)
Theorem C10_end_init_resets_debt_keeps_tick :
  (forall w : world MyUuidV7.globals,
      let w' := exec MyUuidV7.my_uuid_v7_init (exec MyUuidV7.my_uuid_v7_end w) in
      V7.debt w' = 0 /\ V7.tick w' = V7.tick w /\ V7.inited w' = true /\
      (V7.valid w -> V7.tick w < UINT64_MAX ->
       V7.tick w < V7.tick (exec MyUuidV7.my_uuid_v7 w'))) /\
  (forall w : world MyUuidV7SubMs.globals,
      let w' := exec MyUuidV7SubMs.my_uuid_v7_init
                     (exec MyUuidV7SubMs.my_uuid_v7_end w) in
      V7SubMs.debt w' = 0 /\ V7SubMs.tick w' = V7SubMs.tick w /\
      V7SubMs.inited w' = true /\
      (V7SubMs.valid w -> V7SubMs.tick w < UINT64_MAX ->
       V7SubMs.tick w < V7SubMs.tick (exec MyUuidV7SubMs.my_uuid_v7 w'))).
Proof.
  split.
  - intros w w'.
    assert (H : V7.debt w' = 0 /\ V7.tick w' = V7.tick w /\ V7.inited w' = true)
      by (subst w'; destruct w as [[[] b u] o]; repeat split).
    destruct H as (Hd & Ht & Hi). repeat split; try assumption.
    intros [_ Hvt] Hmax. rewrite <- Ht in *.
    apply V7Facts.v7_step_increase; [|exact Hmax].
    split; [rewrite Hd; unfold in_uint64; lia | exact Hvt].
  - intros w w'.
    assert (H : V7SubMs.debt w' = 0 /\ V7SubMs.tick w' = V7SubMs.tick w /\
                V7SubMs.inited w' = true)
      by (subst w'; destruct w as [[[] b u] o]; repeat split).
    destruct H as (Hd & Ht & Hi). repeat split; try assumption.
    intros [_ Hvt] Hmax. rewrite <- Ht in *.
    apply SubMsFacts.subms_step_increase; [|exact Hmax].
    split; [rewrite Hd; unfold in_uint64; lia | exact Hvt].
Qed.

(** C10 after four calls on a clock stuck at 0 (tick 4, debt 10): the
    cycle clears the debt, keeps the tick, and the next call stores 5. *)
Lemma C10_witness :
  let w := run MyUuidV7SubMs.my_uuid_v7 4 (V7SubMs.started (env_of (fun _ => 0) rnd_ok)) in
  let w' := exec MyUuidV7SubMs.my_uuid_v7_init (exec MyUuidV7SubMs.my_uuid_v7_end w) in
  V7SubMs.debt w = 10 /\ V7SubMs.debt w' = 0 /\
  V7SubMs.tick w < V7SubMs.tick (exec MyUuidV7SubMs.my_uuid_v7 w').
Proof.
  intros w w'.
  assert (Hv : V7SubMs.valid w)
    by (repeat split; vm_compute; try reflexivity; intro; discriminate).
  assert (Hmax : V7SubMs.tick w < UINT64_MAX) by (vm_compute; reflexivity).
  assert (Hd : V7SubMs.debt w = 10) by (vm_compute; reflexivity).
  destruct (proj2 C10_end_init_resets_debt_keeps_tick w) as (Hd' & _ & _ & Hinc).
  exact (conj Hd (conj Hd' (Hinc Hv Hmax))).
Defined.

(* ------------------------------------------------------------------ *)
(** * Further properties of the generators *)

(** ** Layout of the identifier *)

Lemma packed_field_8_15 a b c :
  field_8_15 (mi_int6store a ++ mi_int2store b ++ mi_int8store c) = c mod 2 ^ 64.
Proof.
  change (field_8_15 (mi_int6store a ++ mi_int2store b ++ mi_int8store c))
    with (be_value (mi_intstore 8 c)).
  apply (be_value_mi_intstore 8).
Qed.

Lemma packed_uuid_value a b c :
  uuid_value (mi_int6store a ++ mi_int2store b ++ mi_int8store c)
  = (a mod 2 ^ 48 * 65536 + b mod 2 ^ 16) * 2 ^ 64 + c mod 2 ^ 64.
Proof.
  unfold uuid_value, mi_int6store, mi_int2store, mi_int8store.
  rewrite app_assoc, be_value_app, be_value_app, !be_value_mi_intstore,
    !mi_intstore_length.
  reflexivity.
Qed.

(** A value below [2 ^ k] and a multiple of [2 ^ k] share no bit. *)
Lemma lor_disjoint (s v k : Z) :
  0 <= k -> 0 <= s < 2 ^ k -> v mod 2 ^ k = 0 -> Z.lor s v = s + v.
Proof.
  intros Hk Hs Hv.
  assert (Hd : Z.land s v = 0).
  { apply Z.bits_inj'. intros n Hn. rewrite Z.land_spec, Z.bits_0.
    destruct (Z.lt_ge_cases n k) as [Hlt|Hge].
    - assert (E : v = v / 2 ^ k * 2 ^ k).
      { pose proof (Z.div_mod v (2 ^ k) ltac:(lia)). lia. }
      rewrite E, Z.mul_pow2_bits_low by lia. apply andb_false_r.
    - rewrite <- (Z.mod_small s (2 ^ k)) by lia.
      rewrite Z.mod_pow2_bits_high by lia. reflexivity. }
  rewrite <- Z.lxor_lor by exact Hd.
  symmetry. apply Z.add_nocarry_lxor, Hd.
Qed.

(** The 16-bit field: the version above the low 12 bits of the payload. *)
Lemma tagged_16 (payload version : Z) :
  0 <= version < 65536 -> version mod 4096 = 0 ->
  uint16 (Z.lor (Z.land payload 0x0FFF) version) = version + payload mod 4096.
Proof.
  intros Hv Hm.
  change 0x0FFF with (Z.ones 12). rewrite Z.land_ones by lia.
  change (2 ^ 12) with 4096.
  pose proof (Z.mod_pos_bound payload 4096 ltac:(lia)) as Hp.
  rewrite (lor_disjoint (payload mod 4096) version 12) by (change (2 ^ 12) with 4096; lia).
  unfold uint16. change (2 ^ 16) with 65536.
  rewrite Z.mod_small; [lia|].
  assert (version <= 61440); [|lia].
  pose proof (Z.div_mod version 4096 ltac:(lia)). lia.
Qed.

(** The 64-bit field: binary 10 above the low 62 bits of the payload. *)
Lemma tagged_64 (payload : Z) :
  uint64 (Z.lor (Z.land payload 0x3FFFFFFFFFFFFFFF) 0x8000000000000000)
  = 2 ^ 63 + payload mod 2 ^ 62.
Proof.
  change 0x3FFFFFFFFFFFFFFF with (Z.ones 62). rewrite Z.land_ones by lia.
  pose proof (Z.mod_pos_bound payload (2 ^ 62) ltac:(lia)) as Hp.
  rewrite (lor_disjoint (payload mod 2 ^ 62) 0x8000000000000000 63)
    by (try reflexivity; lia).
  change 0x8000000000000000 with (2 ^ 63).
  rewrite Z.add_comm. apply uint64_id. unfold in_uint64. lia.
Qed.

Lemma mod_mod_pow2 (z a b : Z) :
  0 <= b <= a -> (z mod 2 ^ a) mod 2 ^ b = z mod 2 ^ b.
Proof.
  intros H. replace a with (b + (a - b)) by lia.
  rewrite Z.pow_add_r by lia.
  rewrite Z.rem_mul_r by lia.
  rewrite (Z.mul_comm (2 ^ b)), Z.mod_add by lia.
  apply Z.mod_mod. lia.
Qed.

(** ** The random generator *)

Lemma v4_step_output_exact random_b random_c (w : world MyUuidV4.globals) :
  let d n := random (os w) (n + rnd_pos (os w)) in
  eval (MyUuidV4.my_uuid_v4 random_b random_c) w =
  mi_int6store (snd (d 0%nat) mod 2 ^ (8 * 8))
  ++ mi_int2store
       (uint16 (Z.lor (Z.land (if fst (d 0%nat)
                               then snd (d 1%nat) mod 2 ^ (8 * 2)
                               else uint16 random_b)
                              MyUuidV4.UUID_VERSION_MASK)
                      MyUuidV4.UUID_VERSION))
  ++ mi_int8store
       (uint64 (Z.lor (Z.land (if fst (d 0%nat) && fst (d 1%nat)
                               then snd (d 2%nat) mod 2 ^ (8 * 8)
                               else uint64 random_c)
                              MyUuidV4.UUID_VARIANT_MASK)
                      MyUuidV4.UUID_VARIANT)).
Proof.
  cbn zeta. V4Step.start w. cbn [Nat.add]. rewrite Hrnd1, Hrnd2, Hrnd3.
  destruct ok1, ok2, ok3; V4Step.crunch; try discriminate; reflexivity.
Qed.

Lemma v4_step_frame random_b random_c (w : world MyUuidV4.globals) :
  statics (exec (MyUuidV4.my_uuid_v4 random_b random_c) w) = statics w /\
  hrtime (os (exec (MyUuidV4.my_uuid_v4 random_b random_c) w)) = hrtime (os w) /\
  hr_pos (os (exec (MyUuidV4.my_uuid_v4 random_b random_c) w)) = hr_pos (os w) /\
  random (os (exec (MyUuidV4.my_uuid_v4 random_b random_c) w)) = random (os w).
Proof.
  V4Step.start w. V4Step.crunch; repeat split.
Qed.

(** X1: the bytes [my_uuid_v4] writes, read back as the three fields.
    Bytes 0-5 are the low 48 bits of the first draw; bytes 6-7 are 0x4000
    plus 12 bits and bytes 8-15 are 2^63 plus 62 bits.  Those bits come
    from the second and third draws only if every earlier draw succeeded:
    after a failure no further draw is made and the field is filled from
    what the local variable happened to hold. *)
Theorem X1_v4_fields_from_draws :
  forall (random_b random_c : Z) (w : world MyUuidV4.globals),
    let d n := random (os w) (n + rnd_pos (os w)) in
    let to := eval (MyUuidV4.my_uuid_v4 random_b random_c) w in
    timestamp_field to = snd (d 0%nat) mod 2 ^ 48 /\
    field_6_7 to
    = 0x4000 + (if fst (d 0%nat) then snd (d 1%nat) else random_b) mod 4096 /\
    field_8_15 to
    = 2 ^ 63 + (if fst (d 0%nat) && fst (d 1%nat) then snd (d 2%nat) else random_c)
               mod 2 ^ 62.
Proof.
  intros random_b random_c w d to. subst to d. cbn beta.
  pose proof (v4_step_output_exact random_b random_c w) as E. cbn zeta beta in E.
  rewrite E. clear E.
  set (d0 := random (os w) (0 + rnd_pos (os w))).
  set (d1 := random (os w) (1 + rnd_pos (os w))).
  set (d2 := random (os w) (2 + rnd_pos (os w))).
  rewrite packed_timestamp_field, packed_field_6_7, packed_field_8_15.
  unfold MyUuidV4.UUID_VERSION_MASK, MyUuidV4.UUID_VERSION,
    MyUuidV4.UUID_VARIANT_MASK, MyUuidV4.UUID_VARIANT.
  rewrite tagged_16 by (try reflexivity; lia). rewrite tagged_64.
  split; [|split].
  - apply mod_mod_pow2. lia.
  - rewrite Z.mod_small.
    + f_equal. change 4096 with (2 ^ 12).
      destruct (fst d0); [|unfold uint16]; apply mod_mod_pow2; lia.
    + pose proof (Z.mod_pos_bound
                    (if fst d0 then snd d1 mod 2 ^ (8 * 2) else uint16 random_b)
                    4096 ltac:(lia)).
      change (2 ^ 16) with 65536. lia.
  - rewrite Z.mod_small.
    + f_equal.
      destruct (fst d0 && fst d1); [|unfold uint64]; apply mod_mod_pow2; lia.
    + pose proof (Z.mod_pos_bound
                    (if fst d0 && fst d1 then snd d2 mod 2 ^ (8 * 8)
                     else uint64 random_c) (2 ^ 62) ltac:(lia)).
      lia.
Qed.

(** X2: [my_uuid_v4] shares nothing: a call leaves the statics as they
    were, never reads the clock, takes no mutex and never sleeps. *)
Theorem X2_v4_touches_no_shared_state :
  forall (random_b random_c : Z) (w : world MyUuidV4.globals),
    let w' := exec (MyUuidV4.my_uuid_v4 random_b random_c) w in
    statics w' = statics w /\
    hr_pos (os w') = hr_pos (os w) /\
    mutex_ops (trace (os w')) = mutex_ops (trace (os w)) /\
    sleeps (trace (os w')) = sleeps (trace (os w)).
Proof.
  intros random_b random_c w w'. subst w'.
  destruct (v4_step_frame random_b random_c w) as (Hs & _ & Hp & _).
  pose proof (V4Step.v4_step_trace random_b random_c w) as Ht. cbn zeta in Ht.
  rewrite Ht. unfold mutex_ops. rewrite filter_app, sleeps_app.
  destruct (fst (random (os w) (0 + rnd_pos (os w))));
    [destruct (fst (random (os w) (1 + rnd_pos (os w))));
     [destruct (fst (random (os w) (2 + rnd_pos (os w))))|]|];
    cbn; rewrite ?app_nil_r; repeat split; try assumption; lia.
Qed.

(** ** One call of a v7 generator, in full *)

Lemma v7_step_output_exact (w : world MyUuidV7.globals) :
  eval MyUuidV7.my_uuid_v7 w =
  mi_int6store (uint64 (Z.land (V7.tick (exec MyUuidV7.my_uuid_v7 w)) 0xFFFFFFFFFFFF))
  ++ mi_int2store
       (uint16 (Z.lor (Z.land (snd (random (os w) (rnd_pos (os w))) mod 2 ^ (8 * 2))
                              MyUuidV7.UUID_VERSION_MASK)
                      MyUuidV7.UUID_VERSION))
  ++ mi_int8store
       (uint64 (Z.lor (Z.land (snd (random (os w) (S (rnd_pos (os w)))) mod 2 ^ (8 * 8))
                              MyUuidV7.UUID_VARIANT_MASK)
                      MyUuidV7.UUID_VARIANT)).
Proof.
  V7Step.start w. V7Step.crunch; reflexivity.
Qed.

Lemma subms_step_output_exact (w : world MyUuidV7SubMs.globals) :
  eval MyUuidV7SubMs.my_uuid_v7 w =
  mi_int6store
    (uint64 (Z.land (V7SubMs.tick (exec MyUuidV7SubMs.my_uuid_v7 w) / 1000)
                    0xFFFFFFFFFFFF))
  ++ mi_int2store
       (uint16 (Z.lor (Z.land (MyUuidV7SubMs.sub_ms_precision_of
                                 (V7SubMs.tick (exec MyUuidV7SubMs.my_uuid_v7 w)))
                              MyUuidV7SubMs.UUID_VERSION_MASK)
                      MyUuidV7SubMs.UUID_VERSION))
  ++ mi_int8store
       (uint64 (Z.lor (Z.land (snd (random (os w) (rnd_pos (os w))) mod 2 ^ (8 * 8))
                              MyUuidV7SubMs.UUID_VARIANT_MASK)
                      MyUuidV7SubMs.UUID_VARIANT)).
Proof.
  SubMsStep.start w. SubMsStep.crunch; reflexivity.
Qed.

Lemma subms_step_trace (w : world MyUuidV7SubMs.globals) :
  trace (os (exec MyUuidV7SubMs.my_uuid_v7 w)) =
  trace (os w)
  ++ [ev_mutex_lock]
  ++ (if (next_hrtime w <=? V7SubMs.tick w)
         && (V7SubMs.adjusted_debt w >? MyUuidV7SubMs.MAX_BORROWED_MICROSECONDS)
      then [ev_sleep MyUuidV7SubMs.SLEEP_MILLISECONDS] else [])
  ++ [ev_mutex_unlock;
      ev_random_bytes 8 (fst (random (os w) (rnd_pos (os w))))]
  ++ (if fst (random (os w) (rnd_pos (os w))) then []
      else [ev_printf_error MyUuidV7SubMs.error_message]).
Proof.
  SubMsStep.start w.
  destruct (Z.gtb_spec (uint64 (h hp)) u) as [Hgt|Hle];
    destruct (Z.leb_spec (uint64 (h hp)) u) as [Hle'|Hgt']; try lia;
    destruct ok; cbn [andb]; SubMsStep.crunch; try discriminate;
    rewrite <- ?app_assoc; cbn [app]; reflexivity.
Qed.


(** X4: the bytes [my_uuid_v7] of src/mysys/my_uuid_v7.c writes, read back
    as the three fields: the low 48 bits of the tick it stored, 0x7000
    plus the low 12 bits of its first draw, 2^63 plus the low 62 bits of
    its second draw.  The three fields also give the identifier as a
    128-bit number. *)
Theorem X4_v7_fields :
  forall w : world MyUuidV7.globals,
    let to := eval MyUuidV7.my_uuid_v7 w in
    timestamp_field to = V7.tick (exec MyUuidV7.my_uuid_v7 w) mod 2 ^ 48 /\
    field_6_7 to = 0x7000 + snd (random (os w) (rnd_pos (os w))) mod 4096 /\
    field_8_15 to = 2 ^ 63 + snd (random (os w) (S (rnd_pos (os w)))) mod 2 ^ 62 /\
    uuid_value to
    = (timestamp_field to * 2 ^ 16 + field_6_7 to) * 2 ^ 64 + field_8_15 to.
Proof.
  intros w to. subst to. rewrite (v7_step_output_exact w).
  rewrite packed_timestamp_field, packed_field_6_7, packed_field_8_15,
    packed_uuid_value.
  unfold MyUuidV7.UUID_VERSION_MASK, MyUuidV7.UUID_VERSION,
    MyUuidV7.UUID_VARIANT_MASK, MyUuidV7.UUID_VARIANT.
  rewrite tagged_16 by (try reflexivity; lia). rewrite tagged_64.
  rewrite land_low_48.
  set (a := snd (random (os w) (rnd_pos (os w)))).
  set (b := snd (random (os w) (S (rnd_pos (os w))))).
  pose proof (Z.mod_pos_bound (a mod 2 ^ (8 * 2)) 4096 ltac:(lia)) as Ha.
  pose proof (Z.mod_pos_bound (b mod 2 ^ (8 * 8)) (2 ^ 62) ltac:(lia)) as Hb.
  rewrite (Z.mod_small (0x7000 + _)) by (change (2 ^ 16) with 65536; lia).
  rewrite (Z.mod_small (2 ^ 63 + _)) by lia.
  change 4096 with (2 ^ 12) in *.
  rewrite !mod_mod_pow2 by lia.
  repeat split.
Qed.

(** X5: the bytes [my_uuid_v7] of the sub-millisecond file writes, read
    back as the three fields: the milliseconds of the microsecond tick it
    stored (48 bits), 0x7000 plus the remaining microseconds scaled by
    4.096, 2^63 plus the low 62 bits of its draw.  The three fields also
    give the identifier as a 128-bit number. *)
Theorem X5_v7_sub_ms_fields :
  forall w : world MyUuidV7SubMs.globals,
    let to := eval MyUuidV7SubMs.my_uuid_v7 w in
    let tv := V7SubMs.tick (exec MyUuidV7SubMs.my_uuid_v7 w) in
    timestamp_field to = (tv / 1000) mod 2 ^ 48 /\
    field_6_7 to = 0x7000 + 4096 * (tv mod 1000) / 1000 /\
    field_8_15 to = 2 ^ 63 + snd (random (os w) (rnd_pos (os w))) mod 2 ^ 62 /\
    uuid_value to
    = (timestamp_field to * 2 ^ 16 + field_6_7 to) * 2 ^ 64 + field_8_15 to.
Proof.
  intros w to tv. subst to tv.
  rewrite (SubMsRuns.subms_step_timestamp w), (SubMsRuns.subms_step_field_6_7 w),
    SubMsScale.sub_ms_precision_of_spec.
  assert (E8 : field_8_15 (eval MyUuidV7SubMs.my_uuid_v7 w)
               = 2 ^ 63 + snd (random (os w) (rnd_pos (os w))) mod 2 ^ 62).
  { rewrite (subms_step_output_exact w), packed_field_8_15.
    unfold MyUuidV7SubMs.UUID_VARIANT_MASK, MyUuidV7SubMs.UUID_VARIANT.
    rewrite tagged_64.
    set (b := snd (random (os w) (rnd_pos (os w)))).
    pose proof (Z.mod_pos_bound (b mod 2 ^ (8 * 8)) (2 ^ 62) ltac:(lia)) as Hb.
    rewrite Z.mod_small by lia. rewrite mod_mod_pow2 by lia. reflexivity. }
  rewrite E8. repeat split.
  pose proof (SubMsRuns.subms_step_timestamp w) as Et.
  pose proof (SubMsRuns.subms_step_field_6_7 w) as E6.
  rewrite SubMsScale.sub_ms_precision_of_spec in E6.
  rewrite <- Et, <- E6, <- E8.
  destruct (SubMsStep.subms_step_output w) as (rand & ->).
  rewrite packed_uuid_value, packed_timestamp_field, packed_field_6_7,
    packed_field_8_15.
  reflexivity.
Qed.

(** ** Lifecycle *)


(** X12: the lifecycle of the random generator: [my_uuid_v4_init] and
    [my_uuid_v4_end] are idempotent, set and clear the flag and leave the
    environment alone, and a call of [my_uuid_v4] between them keeps the
    flag. *)
Theorem X12_v4_lifecycle :
  forall (random_b random_c : Z) (w : world MyUuidV4.globals),
    let i := exec MyUuidV4.my_uuid_v4_init w in
    let e := exec MyUuidV4.my_uuid_v4_end w in
    exec MyUuidV4.my_uuid_v4_init i = i /\
    exec MyUuidV4.my_uuid_v4_end e = e /\
    MyUuidV4.my_uuid_v4_inited (statics i) = true /\
    MyUuidV4.my_uuid_v4_inited (statics e) = false /\
    MyUuidV4.my_uuid_v4_inited
      (statics (exec (MyUuidV4.my_uuid_v4 random_b random_c) i)) = true /\
    exec MyUuidV4.my_uuid_v4_end i = e /\
    os i = os w /\ os e = os w.
Proof.
  intros random_b random_c w i e.
  assert (Hcall : MyUuidV4.my_uuid_v4_inited
                    (statics (exec (MyUuidV4.my_uuid_v4 random_b random_c) i)) = true).
  { destruct (v4_step_frame random_b random_c i) as (-> & _).
    subst i. destruct w as [[[]] o]; reflexivity. }
  subst i e. destruct w as [[[]] o]; repeat split; exact Hcall.
Qed.

(** ** The stored tick and the clock *)

(** X7: how far the tick a call stores is from the clock reading [tv] of
    that call (in the unit of the ticks), in both v7 files: at most 65535
    units behind it (the most a call repays), and never above the larger
    of [tv] and the previous tick plus one.  With no debt and the clock
    ahead of the previous tick, the stored tick is the clock reading. *)
Theorem X7_stored_tick_tracks_the_clock :
  (forall w : world MyUuidV7.globals,
      V7.valid w -> V7.tick w < UINT64_MAX ->
      let tv := V7.next_ms w in
      let t' := V7.tick (exec MyUuidV7.my_uuid_v7 w) in
      tv - 65535 <= t' <= Z.max tv (V7.tick w + 1) /\
      (V7.debt w = 0 -> V7.tick w < tv -> t' = tv)) /\
  (forall w : world MyUuidV7SubMs.globals,
      V7SubMs.valid w -> V7SubMs.tick w < UINT64_MAX ->
      let tv := next_hrtime w in
      let t' := V7SubMs.tick (exec MyUuidV7SubMs.my_uuid_v7 w) in
      tv - 65535 <= t' <= Z.max tv (V7SubMs.tick w + 1) /\
      (V7SubMs.debt w = 0 -> V7SubMs.tick w < tv -> t' = tv)).
Proof.
  split.
  - intros w Hv Hmax tv t'. subst tv t'.
    destruct (Z.lt_ge_cases (V7.tick w) (V7.next_ms w)) as [H|H].
    + destruct (V7Facts.v7_step_advance_exact w Hv H) as [Ht _].
      destruct (V7Facts.v7_repayment_bounds w Hv H) as (Hr1 & Hr2 & Hr3).
      rewrite Ht. split; [lia|]. intros Hd _. lia.
    + destruct (V7Step.v7_step_stalled w H) as [Ht _].
      destruct Hv as [_ Hvt]. unfold in_uint64 in Hvt.
      rewrite Ht, add64_small by lia. split; [lia|]. intros _ Hlt. lia.
  - intros w Hv Hmax tv t'. subst tv t'.
    destruct (Z.lt_ge_cases (V7SubMs.tick w) (next_hrtime w)) as [H|H].
    + destruct (SubMsFacts.subms_step_advance_exact w Hv H) as [Ht _].
      destruct (SubMsFacts.subms_repayment_bounds w Hv H) as (Hr1 & Hr2 & Hr3).
      rewrite Ht. split; [lia|]. intros Hd _. lia.
    + destruct (SubMsStep.subms_step_stalled w H) as (Ht & _).
      destruct Hv as [_ Hvt]. unfold in_uint64 in Hvt.
      rewrite Ht, add64_small by lia. split; [lia|]. intros _ Hlt. lia.
Qed.

(** X7 after four stalled calls (tick 4, debt 10) when the clock reads
    9 ms: the call repays 4 and stores 5. *)
Lemma X7_witness :
  let o := env_of (fun n => if (n <? 4)%nat then 0 else 9000) rnd_ok in
  let w := run MyUuidV7.my_uuid_v7 4 (V7.started o) in
  V7.next_ms w - 65535 <= V7.tick (exec MyUuidV7.my_uuid_v7 w)
  <= Z.max (V7.next_ms w) (V7.tick w + 1).
Proof.
  intros o w.
  assert (Hv : V7.valid w)
    by (repeat split; vm_compute; try reflexivity; intro; discriminate).
  assert (Hmax : V7.tick w < UINT64_MAX) by (vm_compute; reflexivity).
  exact (proj1 (proj1 X7_stored_tick_tracks_the_clock w Hv Hmax)).
Defined.

(** X8: when the clock is ahead of the stored tick by at most 65536
    units, a call of either v7 file repays the smaller of the debt and the
    gap minus one: it stores the clock reading less that amount and takes
    the same amount off the debt.  (Beyond that gap the [uint16] cast
    truncates the second operand.) *)
Theorem X8_repayment_within_16_bits :
  (forall w : world MyUuidV7.globals,
      V7.valid w ->
      V7.tick w < V7.next_ms w -> V7.next_ms w - V7.tick w <= 65536 ->
      let repay := Z.min (V7.debt w) (V7.next_ms w - V7.tick w - 1) in
      V7.tick (exec MyUuidV7.my_uuid_v7 w) = V7.next_ms w - repay /\
      V7.debt (exec MyUuidV7.my_uuid_v7 w) = V7.debt w - repay) /\
  (forall w : world MyUuidV7SubMs.globals,
      V7SubMs.valid w ->
      V7SubMs.tick w < next_hrtime w -> next_hrtime w - V7SubMs.tick w <= 65536 ->
      let repay := Z.min (V7SubMs.debt w) (next_hrtime w - V7SubMs.tick w - 1) in
      V7SubMs.tick (exec MyUuidV7SubMs.my_uuid_v7 w) = next_hrtime w - repay /\
      V7SubMs.debt (exec MyUuidV7SubMs.my_uuid_v7 w) = V7SubMs.debt w - repay).
Proof.
  split.
  - intros w Hv H Hgap repay. subst repay.
    destruct (v7_repayment_truncated w Hv H) as (Hr & Ht & Hd).
    assert (E : V7.repayment w = Z.min (V7.debt w) (V7.next_ms w - V7.tick w - 1)).
    { rewrite Hr, Z.mod_small by (change (2 ^ 16) with 65536; lia).
      destruct (Z.eqb_spec (V7.debt w) 0) as [E0|_]; [rewrite E0; lia | reflexivity]. }
    rewrite <- E. split; assumption.
  - intros w Hv H Hgap repay. subst repay.
    destruct (subms_repayment_truncated w Hv H) as (Hr & Ht & Hd).
    assert (E : V7SubMs.repayment w
                = Z.min (V7SubMs.debt w) (next_hrtime w - V7SubMs.tick w - 1)).
    { rewrite Hr, Z.mod_small by (change (2 ^ 16) with 65536; lia).
      destruct (Z.eqb_spec (V7SubMs.debt w) 0) as [E0|_]; [rewrite E0; lia | reflexivity]. }
    rewrite <- E. split; assumption.
Qed.

(** X8 after three stalled calls (tick 3, debt 6) when the clock reads 5:
    the call repays 1, stores 4 and leaves the debt at 5. *)
Lemma X8_witness :
  let o := env_of (fun n => if (n <? 3)%nat then 0 else 5) rnd_ok in
  let w := run MyUuidV7SubMs.my_uuid_v7 3 (V7SubMs.started o) in
  let repay := Z.min (V7SubMs.debt w) (next_hrtime w - V7SubMs.tick w - 1) in
  V7SubMs.tick (exec MyUuidV7SubMs.my_uuid_v7 w) = next_hrtime w - repay /\
  V7SubMs.debt (exec MyUuidV7SubMs.my_uuid_v7 w) = V7SubMs.debt w - repay.
Proof.
  intros o w.
  assert (Hv : V7SubMs.valid w)
    by (repeat split; vm_compute; try reflexivity; intro; discriminate).
  assert (H : V7SubMs.tick w < next_hrtime w) by (vm_compute; reflexivity).
  assert (Hgap : next_hrtime w - V7SubMs.tick w <= 65536)
    by (vm_compute; intro; discriminate).
  exact (proj2 X8_repayment_within_16_bits w Hv H Hgap).
Defined.

(** X9: what the stored tick is ahead of the clock reading by is covered
    by the debt.  After a call of the millisecond file the tick exceeds
    the reading of that call by at most the debt; in the sub-millisecond
    file by at most the debt plus the 250000 a sleeping call takes off.
    (The statics are taken below the top of [uint64], so that no sum
    wraps.) *)
Theorem X9_debt_covers_the_lead :
  (forall w : world MyUuidV7.globals,
      V7.valid w -> V7.tick w < UINT64_MAX ->
      V7.debt w + V7.tick w + 1 <= UINT64_MAX ->
      V7.tick (exec MyUuidV7.my_uuid_v7 w) - V7.next_ms w
      <= V7.debt (exec MyUuidV7.my_uuid_v7 w)) /\
  (forall w : world MyUuidV7SubMs.globals,
      V7SubMs.valid w -> V7SubMs.tick w < UINT64_MAX ->
      V7SubMs.debt w + V7SubMs.tick w + 1 <= UINT64_MAX ->
      V7SubMs.tick (exec MyUuidV7SubMs.my_uuid_v7 w) - next_hrtime w
      <= V7SubMs.debt (exec MyUuidV7SubMs.my_uuid_v7 w) + 250000).
Proof.
  split.
  - intros w Hv Hmax Hsum.
    destruct (Z.lt_ge_cases (V7.tick w) (V7.next_ms w)) as [H|H].
    + destruct (V7Facts.v7_step_advance_exact w Hv H) as [Ht Hd].
      destruct (V7Facts.v7_repayment_bounds w Hv H) as (Hr1 & _).
      rewrite Ht, Hd. lia.
    + destruct (V7Step.v7_step_stalled w H) as [Ht Hd].
      pose proof (V7Facts.v7_next_ms_range w) as Hn.
      destruct Hv as [Hvd Hvt]. unfold in_uint64 in *.
      rewrite Ht, Hd. unfold V7.adjusted_debt.
      rewrite (add64_small (V7.tick w) 1) by lia.
      rewrite (sub64_small (V7.tick w)) by (unfold UINT64_MAX in *; lia).
      rewrite (add64_small (V7.tick w - V7.next_ms w) 1)
        by (unfold UINT64_MAX in *; lia).
      rewrite add64_small by lia. lia.
  - intros w Hv Hmax Hsum.
    destruct (Z.lt_ge_cases (V7SubMs.tick w) (next_hrtime w)) as [H|H].
    + destruct (SubMsFacts.subms_step_advance_exact w Hv H) as [Ht Hd].
      destruct (SubMsFacts.subms_repayment_bounds w Hv H) as (Hr1 & _).
      rewrite Ht, Hd. lia.
    + destruct (SubMsStep.subms_step_stalled w H) as (Ht & Hd & _).
      pose proof (SubMsFacts.subms_next_hrtime_range w) as Hn.
      destruct Hv as [Hvd Hvt]. unfold in_uint64 in *.
      assert (Ea : V7SubMs.adjusted_debt w
                   = V7SubMs.debt w + (V7SubMs.tick w - next_hrtime w + 1)).
      { unfold V7SubMs.adjusted_debt.
        rewrite (sub64_small (V7SubMs.tick w)) by (unfold UINT64_MAX in *; lia).
        rewrite (add64_small (V7SubMs.tick w - next_hrtime w) 1)
          by (unfold UINT64_MAX in *; lia).
        apply add64_small. lia. }
      rewrite Ht, Hd, (add64_small (V7SubMs.tick w) 1) by lia.
      destruct (Z.gtb_spec (V7SubMs.adjusted_debt w)
                           MyUuidV7SubMs.MAX_BORROWED_MICROSECONDS) as [Hg|Hg].
      * unfold MyUuidV7SubMs.MAX_BORROWED_MICROSECONDS in *.
        change (500000 / 2) with 250000.
        rewrite sub64_small by (unfold UINT64_MAX in *; lia). lia.
      * lia.
Qed.

(** X9 at a stalled call: tick 3 and debt 6 after three calls on a clock
    stuck at 0; the fourth stores 4 with the debt at 10. *)
Lemma X9_witness :
  let w := run MyUuidV7.my_uuid_v7 3 (V7.started (env_of (fun _ => 0) rnd_ok)) in
  V7.tick (exec MyUuidV7.my_uuid_v7 w) - V7.next_ms w
  <= V7.debt (exec MyUuidV7.my_uuid_v7 w).
Proof.
  intros w.
  assert (Hv : V7.valid w)
    by (repeat split; vm_compute; try reflexivity; intro; discriminate).
  assert (Hmax : V7.tick w < UINT64_MAX) by (vm_compute; reflexivity).
  assert (Hsum : V7.debt w + V7.tick w + 1 <= UINT64_MAX)
    by (vm_compute; intro; discriminate).
  exact (proj1 X9_debt_covers_the_lead w Hv Hmax Hsum).
Defined.

(** ** Runs on a well-behaved clock and the order of identifiers *)

Lemma outputs_Forall {G : Type} (generate : M G (list Z)) (P : list Z -> Prop) :
  (forall w, P (eval generate w)) ->
  forall K w, Forall P (outputs generate K w).
Proof.
  intros HP K. induction K as [|k IH]; intros w; cbn [outputs]; constructor.
  - apply HP.
  - apply IH.
Qed.

(** Values that split as [key * c + r] with [0 <= r < c] are ordered as
    their keys. *)
Lemma sorted_by_key {A : Type} (key val : A -> Z) (c : Z) (l : list A) :
  Forall (fun x => exists r, val x = key x * c + r /\ 0 <= r < c) l ->
  StronglySorted Z.lt (map key l) ->
  StronglySorted Z.lt (map val l).
Proof.
  intros Hsplit. induction l as [|a l IH]; cbn [map]; intros Hs.
  - constructor.
  - inversion Hsplit as [|? ? Ha Hl]; subst.
    inversion Hs as [|? ? Hs' Hlt]; subst.
    constructor; [apply IH; assumption|].
    rewrite Forall_forall in *. intros v Hv.
    apply in_map_iff in Hv. destruct Hv as (x & <- & Hx).
    specialize (Hlt (key x) (in_map key l x Hx)).
    destruct Ha as (ra & -> & Hra). destruct (Hl x Hx) as (rx & -> & Hrx).
    nia.
Qed.

Lemma packed_split_timestamp a b c :
  exists r,
    uuid_value (mi_int6store a ++ mi_int2store b ++ mi_int8store c)
    = timestamp_field (mi_int6store a ++ mi_int2store b ++ mi_int8store c) * 2 ^ 80 + r
    /\ 0 <= r < 2 ^ 80.
Proof.
  rewrite packed_uuid_value, packed_timestamp_field.
  pose proof (Z.mod_pos_bound b (2 ^ 16) ltac:(lia)) as Hb.
  pose proof (Z.mod_pos_bound c (2 ^ 64) ltac:(lia)) as Hc.
  exists (b mod 2 ^ 16 * 2 ^ 64 + c mod 2 ^ 64). split; lia.
Qed.

Lemma packed_split_prefix a b c :
  exists r,
    uuid_value (mi_int6store a ++ mi_int2store b ++ mi_int8store c)
    = (a mod 2 ^ 48 * 65536 + b mod 2 ^ 16) * 2 ^ 64 + r
    /\ 0 <= r < 2 ^ 64.
Proof.
  rewrite packed_uuid_value.
  exists (c mod 2 ^ 64). split; [reflexivity|].
  apply Z.mod_pos_bound. lia.
Qed.

Module V7Order.

Import MyUuidV7 V7.

Lemma v7_timestamps_sorted K w :
  valid w -> Forall (fun t => t < 2 ^ 48) (ticks K w) ->
  StronglySorted Z.lt (map timestamp_field (outputs my_uuid_v7 K w)).
Proof.
  intros Hv Hb. rewrite V7Runs.v7_outputs_timestamps.
  pose proof (V7Runs.v7_ticks_range K w Hv) as Hr.
  assert (Hs : StronglySorted Z.lt (ticks K w)).
  { apply V7Runs.v7_ticks_sorted_bounded; [exact Hv|].
    eapply Forall_impl; [|exact Hb]. cbn. intros t Ht. unfold UINT64_MAX. lia. }
  rewrite Forall_forall in Hr, Hb.
  apply StronglySorted_map_in with (R := Z.lt); [|exact Hs].
  intros x y Hx Hy Hxy. pose proof (Hr x Hx) as [Hx0 _].
  pose proof (Hb x Hx). pose proof (Hb y Hy).
  rewrite (Z.mod_small x), (Z.mod_small y) by lia. exact Hxy.
Qed.

Lemma v7_uuid_value_split w :
  exists r, uuid_value (eval my_uuid_v7 w)
            = timestamp_field (eval my_uuid_v7 w) * 2 ^ 80 + r /\ 0 <= r < 2 ^ 80.
Proof.
  destruct (V7Step.v7_step_output w) as (a & b & ->).
  apply packed_split_timestamp.
Qed.

(** With no debt, on a clock that reads more at every call and is ahead
    of the stored tick, every call stores the clock reading. *)
Lemma v7_run_on_advancing_clock K :
  forall w,
    valid w -> debt w = 0 ->
    (forall n, (hr_pos (os w) <= n)%nat -> (S n < hr_pos (os w) + K)%nat ->
               uint64 (hrtime (os w) n) / 1000 < uint64 (hrtime (os w) (S n)) / 1000) ->
    ((0 < K)%nat -> tick w < next_ms w) ->
    ticks K w = map (fun n => uint64 (hrtime (os w) n) / 1000) (seq (hr_pos (os w)) K) /\
    debt (run my_uuid_v7 K w) = 0.
Proof.
  induction K as [|k IH]; intros w Hv Hd Hclk Ht.
  - split; [reflexivity | exact Hd].
  - specialize (Ht ltac:(lia)).
    destruct (V7Facts.v7_step_advance_exact w Hv Ht) as [Ht' Hd'].
    destruct (V7Facts.v7_repayment_bounds w Hv Ht) as (Hr & _).
    destruct (V7Step.v7_step_env w) as (Hh & Hp & _).
    assert (Er : repayment w = 0) by lia.
    rewrite Er, Z.sub_0_r in Ht', Hd'.
    destruct (IH (exec my_uuid_v7 w)) as [IHt IHd].
    + apply V7Facts.v7_step_valid, Hv.
    + lia.
    + intros n Hn1 Hn2. rewrite Hh. rewrite Hp in Hn1, Hn2. apply Hclk; lia.
    + intros Hk. unfold next_ms, next_hrtime at 1. rewrite Hh, Hp, Ht'.
      unfold next_ms, next_hrtime. apply Hclk; lia.
    + split.
      * unfold ticks in *. cbn [states map seq]. rewrite IHt, Hh, Hp. f_equal.
        exact Ht'.
      * exact IHd.
Qed.

End V7Order.

Module SubMsOrder.

Import MyUuidV7SubMs V7SubMs.

Lemma subms_prefixes_sorted K w :
  valid w -> Forall (fun t => t < 1000 * 2 ^ 48) (ticks K w) ->
  StronglySorted Z.lt (map prefix_0_7 (outputs my_uuid_v7 K w)).
Proof.
  intros Hv Hb. rewrite SubMsRuns.subms_outputs_prefixes.
  pose proof (SubMsRuns.subms_ticks_range K w Hv) as Hr.
  assert (Hs : StronglySorted Z.lt (ticks K w)).
  { apply SubMsRuns.subms_ticks_sorted_bounded; [exact Hv|].
    eapply Forall_impl; [|exact Hb]. cbn. intros t Ht. unfold UINT64_MAX. lia. }
  rewrite Forall_forall in Hr, Hb.
  apply StronglySorted_map_in with (R := Z.lt); [|exact Hs].
  intros x y Hx Hy Hxy. pose proof (Hr x Hx) as [Hx0 _].
  apply SubMsRuns.subms_key_of_tick_increasing; [lia | lia | apply Hb, Hy].
Qed.

Lemma subms_uuid_value_split w :
  exists r, uuid_value (eval my_uuid_v7 w)
            = prefix_0_7 (eval my_uuid_v7 w) * 2 ^ 64 + r /\ 0 <= r < 2 ^ 64.
Proof.
  rewrite SubMsRuns.subms_step_prefix.
  destruct (SubMsStep.subms_step_output w) as (rand & ->).
  rewrite packed_timestamp_field, packed_field_6_7.
  apply packed_split_prefix.
Qed.

Lemma subms_run_on_advancing_clock K :
  forall w,
    valid w -> debt w = 0 ->
    (forall n, (hr_pos (os w) <= n)%nat -> (S n < hr_pos (os w) + K)%nat ->
               uint64 (hrtime (os w) n) < uint64 (hrtime (os w) (S n))) ->
    ((0 < K)%nat -> tick w < next_hrtime w) ->
    ticks K w = map (fun n => uint64 (hrtime (os w) n)) (seq (hr_pos (os w)) K) /\
    debt (run my_uuid_v7 K w) = 0 /\
    sleeps (trace (os (run my_uuid_v7 K w))) = sleeps (trace (os w)).
Proof.
  induction K as [|k IH]; intros w Hv Hd Hclk Ht.
  - repeat split. exact Hd.
  - specialize (Ht ltac:(lia)).
    destruct (SubMsFacts.subms_step_advance_exact w Hv Ht) as [Ht' Hd'].
    destruct (SubMsFacts.subms_repayment_bounds w Hv Ht) as (Hr & _).
    destruct (SubMsStep.subms_step_advance w Ht) as (_ & _ & Hs).
    destruct (SubMsStep.subms_step_env w) as (Hh & Hp & _).
    assert (Er : repayment w = 0) by lia.
    rewrite Er, Z.sub_0_r in Ht', Hd'.
    destruct (IH (exec my_uuid_v7 w)) as (IHt & IHd & IHs).
    + apply SubMsFacts.subms_step_valid, Hv.
    + lia.
    + intros n Hn1 Hn2. rewrite Hh. rewrite Hp in Hn1, Hn2. apply Hclk; lia.
    + intros Hk. unfold next_hrtime at 1. rewrite Hh, Hp, Ht'.
      unfold next_hrtime. apply Hclk; lia.
    + repeat split.
      * unfold ticks in *. cbn [states map seq]. rewrite IHt, Hh, Hp. f_equal.
        exact Ht'.
      * exact IHd.
      * cbn [run]. rewrite IHs. exact Hs.
Qed.

End SubMsOrder.

(** X10: normal operation.  From a state with no debt, when the clock is
    ahead of the stored tick and each of the [K] readings of [K]
    sequential calls is strictly above the one before (in ticks), the
    ticks the calls store are exactly the [K] clock readings and the debt
    stays 0; the sub-millisecond file never sleeps. *)
Theorem X10_run_on_an_advancing_clock :
  (forall (K : nat) (w : world MyUuidV7.globals),
      V7.valid w -> V7.debt w = 0 ->
      (forall n, (hr_pos (os w) <= n)%nat -> (S n < hr_pos (os w) + K)%nat ->
                 uint64 (hrtime (os w) n) / 1000
                 < uint64 (hrtime (os w) (S n)) / 1000) ->
      V7.tick w < V7.next_ms w ->
      V7.ticks K w
      = map (fun n => uint64 (hrtime (os w) n) / 1000) (seq (hr_pos (os w)) K) /\
      V7.debt (run MyUuidV7.my_uuid_v7 K w) = 0) /\
  (forall (K : nat) (w : world MyUuidV7SubMs.globals),
      V7SubMs.valid w -> V7SubMs.debt w = 0 ->
      (forall n, (hr_pos (os w) <= n)%nat -> (S n < hr_pos (os w) + K)%nat ->
                 uint64 (hrtime (os w) n) < uint64 (hrtime (os w) (S n))) ->
      V7SubMs.tick w < next_hrtime w ->
      V7SubMs.ticks K w
      = map (fun n => uint64 (hrtime (os w) n)) (seq (hr_pos (os w)) K) /\
      V7SubMs.debt (run MyUuidV7SubMs.my_uuid_v7 K w) = 0 /\
      sleeps (trace (os (run MyUuidV7SubMs.my_uuid_v7 K w))) = sleeps (trace (os w))).
Proof.
  split.
  - intros K w Hv Hd Hclk Ht.
    apply V7Order.v7_run_on_advancing_clock; auto.
  - intros K w Hv Hd Hclk Ht.
    apply SubMsOrder.subms_run_on_advancing_clock; auto.
Qed.

(** X10 on a clock that reads 7, 8, 9 microseconds. *)
Lemma X10_witness :
  let w := V7SubMs.started (env_of (fun n => 7 + Z.of_nat n) rnd_ok) in
  V7SubMs.ticks 3 w = map (fun n => uint64 (hrtime (os w) n)) (seq (hr_pos (os w)) 3) /\
  V7SubMs.debt (run MyUuidV7SubMs.my_uuid_v7 3 w) = 0 /\
  sleeps (trace (os (run MyUuidV7SubMs.my_uuid_v7 3 w))) = sleeps (trace (os w)).
Proof.
  intros w.
  assert (Hv : V7SubMs.valid w)
    by (repeat split; vm_compute; try reflexivity; intro; discriminate).
  assert (Hd : V7SubMs.debt w = 0) by reflexivity.
  assert (Hclk : forall n, (hr_pos (os w) <= n)%nat -> (S n < hr_pos (os w) + 3)%nat ->
                           uint64 (hrtime (os w) n) < uint64 (hrtime (os w) (S n))).
  { intros n _ Hn. change (hr_pos (os w)) with 0%nat in Hn.
    change (hrtime (os w)) with (fun n => 7 + Z.of_nat n). cbn beta.
    rewrite !uint64_id; unfold in_uint64; lia. }
  assert (Ht : V7SubMs.tick w < next_hrtime w) by (vm_compute; reflexivity).
  exact (proj2 X10_run_on_an_advancing_clock 3%nat w Hv Hd Hclk Ht).
Defined.

(** X11: order and uniqueness of whole identifiers.  The identifiers of
    sequential calls, compared as 128-bit big-endian numbers (bytewise),
    strictly increase and so are pairwise different, whatever the CSPRNG
    returns: in the millisecond file as long as the stored ticks are below
    2^48, in the sub-millisecond file as long as they are below
    1000 * 2^48. *)
Theorem X11_identifiers_strictly_increase :
  (forall (K : nat) (w : world MyUuidV7.globals),
      V7.valid w ->
      Forall (fun t => t < 2 ^ 48) (V7.ticks K w) ->
      StronglySorted Z.lt (map uuid_value (outputs MyUuidV7.my_uuid_v7 K w)) /\
      NoDup (outputs MyUuidV7.my_uuid_v7 K w)) /\
  (forall (K : nat) (w : world MyUuidV7SubMs.globals),
      V7SubMs.valid w ->
      Forall (fun t => t < 1000 * 2 ^ 48) (V7SubMs.ticks K w) ->
      StronglySorted Z.lt (map uuid_value (outputs MyUuidV7SubMs.my_uuid_v7 K w)) /\
      NoDup (outputs MyUuidV7SubMs.my_uuid_v7 K w)).
Proof.
  split.
  - intros K w Hv Hb.
    assert (Hs : StronglySorted Z.lt
                   (map uuid_value (outputs MyUuidV7.my_uuid_v7 K w))).
    { apply (sorted_by_key timestamp_field uuid_value (2 ^ 80)).
      - apply outputs_Forall. exact V7Order.v7_uuid_value_split.
      - apply V7Order.v7_timestamps_sorted; assumption. }
    split; [exact Hs|].
    apply (NoDup_map_inv uuid_value), StronglySorted_lt_NoDup, Hs.
  - intros K w Hv Hb.
    assert (Hs : StronglySorted Z.lt
                   (map uuid_value (outputs MyUuidV7SubMs.my_uuid_v7 K w))).
    { apply (sorted_by_key prefix_0_7 uuid_value (2 ^ 64)).
      - apply outputs_Forall. exact SubMsOrder.subms_uuid_value_split.
      - apply SubMsOrder.subms_prefixes_sorted; assumption. }
    split; [exact Hs|].
    apply (NoDup_map_inv uuid_value), StronglySorted_lt_NoDup, Hs.
Qed.

(** X11 on a broken CSPRNG and a clock stuck at 1000 microseconds: three
    identifiers, all different. *)
Lemma X11_witness :
  let w := V7SubMs.started (env_of (fun _ => 1000) rnd_broken) in
  NoDup (outputs MyUuidV7SubMs.my_uuid_v7 3 w).
Proof.
  intros w.
  assert (Hv : V7SubMs.valid w)
    by (repeat split; vm_compute; try reflexivity; intro; discriminate).
  assert (Et : V7SubMs.ticks 3 w = [1000; 1001; 1002]) by (vm_compute; reflexivity).
  assert (Hb : Forall (fun t => t < 1000 * 2 ^ 48) (V7SubMs.ticks 3 w))
    by (rewrite Et; repeat constructor).
  exact (proj2 (proj2 X11_identifiers_strictly_increase 3%nat w Hv Hb)).
Defined.
